(** * Focus Lab audio engine: parameter automation and Pro Mode

    A shallow embedding of [js/audio-engine.js], followed by the handlers
    of the profile editor and the functions of the data model that
    produce and consume the engine's data.

    Conventions of the embedding.
    - A JavaScript number is a real number ([R]).  The arithmetic of the
      engine (sums, products, [Math.max], [Math.min], [Math.sin],
      [Math.pow] with a positive base) is the arithmetic of [R]; rounding
      and signed zeros are not represented.  The one division whose divisor
      can really be zero, the interaction rate of [recordInteraction], is
      computed by [js_div], which returns the IEEE infinities and NaN.
    - Where the rounding of the engine's binary64 arithmetic decides a
      property, the function concerned is given a second time on
      primitive floats ([interpolateCurve64], [lower_offset64]) and
      evaluated there.  The properties of the interpolator, of the
      progress report and of a burst of interactions are stated through
      the expressions the code evaluates and the order of their
      operands, not through identities of exact arithmetic.
    - The module-level variables of the engine are the fields of the
      record [engine]; every function that assigns one of them takes an
      [engine] and returns the new one.
    - [audioContext.currentTime] is read from the environment: the
      functions that read it take the reading as the argument [now].
    - The calls into the Web Audio graph ([setTargetAtTime]) and the
      [sessionComplete] event are returned as a list of [effect]s, in the
      order in which the code performs them. *)

From Stdlib Require Import Reals Lra Lia List Bool String Ascii ZArith.
From Stdlib Require Import DecimalString.
From Stdlib Require Import Floats.
Import ListNotations.
Open Scope R_scope.

(* ================================================================= *)
(** ** Numbers *)

(** Comparison operators of JavaScript on finite numbers, as booleans. *)

Definition Rleb (x y : R) : bool := if Rle_dec x y then true else false.
Definition Rltb (x y : R) : bool := if Rlt_dec x y then true else false.
Definition Rgeb (x y : R) : bool := Rleb y x.
Definition Rgtb (x y : R) : bool := Rltb y x.
Definition Reqb (x y : R) : bool := if Req_dec_T x y then true else false.

(** The result of a JavaScript division: [x / 0] is an infinity for a
    nonzero [x] and NaN for [0 / 0]. *)

Inductive jsnum : Type :=
| Finite (r : R)
| PosInf
| NegInf
| NaN.

Definition js_div (a b : R) : jsnum :=
  if Req_dec_T b 0 then
    if Rlt_dec 0 a then PosInf
    else if Rlt_dec a 0 then NegInf
    else NaN
  else Finite (a / b).

(** [x > c] and [x < c] for a finite [c]; every comparison with NaN is
    false. *)

Definition js_gtb (x : jsnum) (c : R) : bool :=
  match x with
  | Finite r => Rgtb r c
  | PosInf => true
  | NegInf => false
  | NaN => false
  end.

Definition js_ltb (x : jsnum) (c : R) : bool :=
  match x with
  | Finite r => Rltb r c
  | PosInf => false
  | NegInf => true
  | NaN => false
  end.

(* ================================================================= *)
(** ** Sound profiles *)

(** A control point [{time, value}] of a curve. *)

Record point : Type := mkPoint { time : R; value : R }.

(** A silence block [{start, duration}], in seconds. *)

Record block : Type := mkBlock { start : R; block_duration : R }.

(** A profile object.  The fields under [layers] are flattened:
    [curve] is [layers.baseFrequency.curve], [densityMap] is
    [layers.texture.densityMap], [modulation_type] and [intensity] are
    the fields of [layers.modulation], [blocks] is
    [layers.silence.blocks].  A curve that is [null] or [undefined] is
    [None]. *)

Record profile : Type := mkProfile {
  id : option string;
  name : string;
  duration : R;
  curve : option (list point);
  densityMap : option (list point);
  modulation_type : string;
  intensity : R;
  blocks : list block
}.

(* ================================================================= *)
(** ** Constants *)

Definition FREQ_MIN : R := 80.
Definition FREQ_MAX : R := 400.

Definition FILTER_FREQ_MIN : R := 200.
Definition FILTER_FREQ_MAX : R := 2000.
Definition FILTER_Q_MIN : R := 0.5.
Definition FILTER_Q_MAX : R := 8.

Record modulation_params : Type := mkParams { lfoFreq : R; lfoDepth : R }.

(** The object [MODULATION_TYPES], as a lookup by key. *)

Definition MODULATION_TYPES (key : string) : option modulation_params :=
  if String.eqb key "stable" then Some (mkParams 0 0)
  else if String.eqb key "gentle" then Some (mkParams 0.1 0.02)
  else if String.eqb key "irregular" then Some (mkParams 0.3 0.05)
  else None.

(** [MODULATION_TYPES[type] || MODULATION_TYPES.stable] *)

Definition modulation_lookup (key : string) : modulation_params :=
  match MODULATION_TYPES key with
  | Some params => params
  | None => mkParams 0 0
  end.

(* ================================================================= *)
(** ** Curve interpolation and unit mapping *)

(** [mapToFrequency]: clamp to [0,1], then the exponential map. *)

Definition mapToFrequency (v : R) : R :=
  let normalizedValue := Rmax 0 (Rmin 1 v) in
  FREQ_MIN * Rpower (FREQ_MAX / FREQ_MIN) normalizedValue.

(** The loop of [interpolateCurve]: the first index [i] with
    [curve[i].time <= progress && curve[i + 1].time >= progress]. *)

Fixpoint find_bracket (c : list point) (progress : R) : option (point * point) :=
  match c with
  | a :: ((b :: _) as rest) =>
      if Rleb (time a) progress && Rgeb (time b) progress
      then Some (a, b)
      else find_bracket rest progress
  | _ => None
  end.

Definition interpolateCurve (c : option (list point)) (progress : R) : R :=
  match c with
  | None => 0.5
  | Some [] => 0.5
  | Some [p] => value p
  | Some (first :: rest) =>
      let '(lower, upper) :=
        match find_bracket (first :: rest) progress with
        | Some found => found
        | None => (first, last rest first)
        end in
      let range := time upper - time lower in
      if Reqb range 0 then value lower
      else
        let t := (progress - time lower) / range in
        value lower + (value upper - value lower) * t
  end.

(* ================================================================= *)
(** ** The interpolation in binary64

    [interpolateCurve] once more, operation for operation, on the
    numbers the engine computes with: IEEE 754 binary64 ([float]), every
    operation rounded to nearest.  It serves to evaluate the function on
    a concrete curve with the rounding the code performs. *)

Record point64 : Type := mkPoint64 { time64 : float; value64 : float }.



(** The least and the greatest number of a non-empty list. *)


Definition maximum64 (x : float) (l : list float) : float :=
  fold_right (fun y m => if PrimFloat.ltb m y then y else m) x l.

(** The statement [Math.max(-0.1, x - 0.01)] of [recordInteraction], in
    binary64. *)

#[warnings="-inexact-float"]
Definition lower_offset64 (x : float) : float :=
  let y := (x - 0.01)%float in
  if PrimFloat.ltb y (-0.1)%float then (-0.1)%float else y.

(* ================================================================= *)
(** ** The audio graph, seen from the engine *)

(** The [AudioParam]s the engine writes. *)

Inductive audio_param : Type :=
| OscillatorFrequency
| FilterFrequency
| FilterQ
| DensityGain
| PannerPan
| SilenceGateGain
| MasterGain.

(** The [detail] of the [sessionComplete] event.  [profileId] is [None]
    when the id is [null] or the profile is absent. *)

Record completion : Type := mkCompletion {
  profileId : option string;
  profileName : option string;
  completed_duration : R;
  completed_proModeEnabled : bool;
  wasAdapted : bool
}.

Inductive effect : Type :=
| SetValue (p : audio_param) (v : R)
    (* [param.value = v] *)
| SetTargetAtTime (p : audio_param) (target startTime timeConstant : R)
    (* [param.setTargetAtTime(target, startTime, timeConstant)] *)
| SessionComplete (detail : completion).
    (* [window.dispatchEvent(new CustomEvent('sessionComplete', ...))] *)

(** The targets written to one parameter by [setTargetAtTime], oldest
    first, and the last of them: the one the parameter glides to. *)

Fixpoint targets_of (p : audio_param) (fx : list effect) : list R :=
  match fx with
  | [] => []
  | SetTargetAtTime q v _ _ :: rest =>
      match p, q with
      | OscillatorFrequency, OscillatorFrequency
      | FilterFrequency, FilterFrequency
      | FilterQ, FilterQ
      | DensityGain, DensityGain
      | PannerPan, PannerPan
      | SilenceGateGain, SilenceGateGain
      | MasterGain, MasterGain => v :: targets_of p rest
      | _, _ => targets_of p rest
      end
  | _ :: rest => targets_of p rest
  end.

Definition last_target (p : audio_param) (fx : list effect) : option R :=
  last (map Some (targets_of p fx)) None.

(* ================================================================= *)
(** ** Engine state *)

Record adjustments : Type := mkAdjustments {
  frequencyOffset : R;
  textureOffset : R;
  modulationOffset : R
}.

(** The variables of the module.  [audioContext] and [oscillator] are
    [true] when the variable holds an object and [false] when it is
    [null]; [animationFrameId] is [true] when a frame callback is
    pending.  The nodes [filter], [densityGain], [panner], [silenceGate]
    and [masterGain] are created with the context in [init] and dropped
    with it in [dispose], so they are non-null exactly when
    [audioContext] is. *)

Record engine : Type := mkEngine {
  audioContext : bool;
  oscillator : bool;
  isPlaying : bool;
  currentProfile : option profile;
  sessionStartTime : R;
  sessionDuration : R;
  animationFrameId : bool;
  proModeEnabled : bool;
  interactionCount : nat;
  proModeAdjustments : adjustments
}.

Definition filter (e : engine) : bool := audioContext e.
Definition panner (e : engine) : bool := audioContext e.
Definition silenceGate (e : engine) : bool := audioContext e.
Definition masterGain (e : engine) : bool := audioContext e.

Definition zero_adjustments : adjustments := mkAdjustments 0 0 0.

Definition initial_engine : engine :=
  {| audioContext := false;
     oscillator := false;
     isPlaying := false;
     currentProfile := None;
     sessionStartTime := 0;
     sessionDuration := 0;
     animationFrameId := false;
     proModeEnabled := false;
     interactionCount := 0;
     proModeAdjustments := zero_adjustments |}.

(** Assignments to single variables. *)

Definition set_audioContext (b : bool) (e : engine) : engine :=
  mkEngine b (oscillator e) (isPlaying e) (currentProfile e)
    (sessionStartTime e) (sessionDuration e) (animationFrameId e)
    (proModeEnabled e) (interactionCount e) (proModeAdjustments e).

Definition set_oscillator (b : bool) (e : engine) : engine :=
  mkEngine (audioContext e) b (isPlaying e) (currentProfile e)
    (sessionStartTime e) (sessionDuration e) (animationFrameId e)
    (proModeEnabled e) (interactionCount e) (proModeAdjustments e).

Definition set_isPlaying (b : bool) (e : engine) : engine :=
  mkEngine (audioContext e) (oscillator e) b (currentProfile e)
    (sessionStartTime e) (sessionDuration e) (animationFrameId e)
    (proModeEnabled e) (interactionCount e) (proModeAdjustments e).

Definition set_currentProfile (p : option profile) (e : engine) : engine :=
  mkEngine (audioContext e) (oscillator e) (isPlaying e) p
    (sessionStartTime e) (sessionDuration e) (animationFrameId e)
    (proModeEnabled e) (interactionCount e) (proModeAdjustments e).

Definition set_sessionStartTime (t : R) (e : engine) : engine :=
  mkEngine (audioContext e) (oscillator e) (isPlaying e) (currentProfile e)
    t (sessionDuration e) (animationFrameId e)
    (proModeEnabled e) (interactionCount e) (proModeAdjustments e).

Definition set_sessionDuration (d : R) (e : engine) : engine :=
  mkEngine (audioContext e) (oscillator e) (isPlaying e) (currentProfile e)
    (sessionStartTime e) d (animationFrameId e)
    (proModeEnabled e) (interactionCount e) (proModeAdjustments e).

Definition set_animationFrameId (b : bool) (e : engine) : engine :=
  mkEngine (audioContext e) (oscillator e) (isPlaying e) (currentProfile e)
    (sessionStartTime e) (sessionDuration e) b
    (proModeEnabled e) (interactionCount e) (proModeAdjustments e).

Definition set_proModeEnabled (b : bool) (e : engine) : engine :=
  mkEngine (audioContext e) (oscillator e) (isPlaying e) (currentProfile e)
    (sessionStartTime e) (sessionDuration e) (animationFrameId e)
    b (interactionCount e) (proModeAdjustments e).

Definition set_interactionCount (n : nat) (e : engine) : engine :=
  mkEngine (audioContext e) (oscillator e) (isPlaying e) (currentProfile e)
    (sessionStartTime e) (sessionDuration e) (animationFrameId e)
    (proModeEnabled e) n (proModeAdjustments e).

Definition set_proModeAdjustments (a : adjustments) (e : engine) : engine :=
  mkEngine (audioContext e) (oscillator e) (isPlaying e) (currentProfile e)
    (sessionStartTime e) (sessionDuration e) (animationFrameId e)
    (proModeEnabled e) (interactionCount e) a.

(* ================================================================= *)
(** ** Initialisation *)

(** What the platform answers when [init] asks for an audio context:
    a running context, a suspended context whose [resume()] is rejected,
    or no context at all (the constructor throws). *)

Inductive audio_grant : Type :=
| Running
| ResumeRejected
| Unavailable.

Definition createAudioGraph : list effect :=
  [ SetValue MasterGain 0.7;
    SetValue SilenceGateGain 1;
    SetValue PannerPan 0;
    SetValue DensityGain 1;
    SetValue FilterFrequency 1000;
    SetValue FilterQ 1 ].

(** [init]: the boolean tells whether the promise resolves. *)

Definition init (e : engine) (g : audio_grant) : engine * list effect * bool :=
  if audioContext e then (e, [], true)
  else
    match g with
    | Unavailable => (e, [], false)
    | ResumeRejected => (set_audioContext true e, createAudioGraph, false)
    | Running => (set_audioContext true e, createAudioGraph, true)
    end.

Definition startOscillator (e : engine) : engine * list effect :=
  (set_oscillator true e, [SetValue OscillatorFrequency (mapToFrequency 0.5)]).

(* ================================================================= *)
(** ** Texture, volume, profile loading *)

Definition applyTexture (e : engine) (now v : R) : list effect :=
  if negb (filter e) then []
  else
    let normalizedValue := Rmax 0 (Rmin 1 v) in
    let filterFreq :=
      FILTER_FREQ_MAX - normalizedValue * (FILTER_FREQ_MAX - FILTER_FREQ_MIN) in
    let filterQ :=
      FILTER_Q_MIN + normalizedValue * (FILTER_Q_MAX - FILTER_Q_MIN) in
    let density := 0.7 + normalizedValue * 0.3 in
    [ SetTargetAtTime FilterFrequency filterFreq now 0.1;
      SetTargetAtTime FilterQ filterQ now 0.1;
      SetTargetAtTime DensityGain density now 0.1 ].

Definition setMasterVolume (e : engine) (now volume : R) : list effect :=
  if negb (masterGain e) then []
  else [SetTargetAtTime MasterGain (Rmax 0 (Rmin 1 volume)) now 0.1].

Definition loadProfile (e : engine) (p : profile) : engine :=
  let e := set_currentProfile (Some p) e in
  let e := set_sessionDuration (duration p) e in
  let e := set_proModeAdjustments (mkAdjustments 0 0 0) e in
  set_interactionCount 0 e.

(* ================================================================= *)
(** ** Pause, stop, progress *)

Definition pause (e : engine) : engine :=
  if negb (isPlaying e) then e
  else
    let e := set_isPlaying false e in
    let e := if oscillator e then set_oscillator false e else e in
    if animationFrameId e then set_animationFrameId false e else e.

Definition stop (e : engine) : engine :=
  set_sessionStartTime 0 (pause e).

Record progress_info : Type := mkProgress {
  elapsed : R;
  remaining : R;
  progress : R
}.

(** [sessionDuration] is the [duration] of the loaded profile, a positive
    number of seconds; [elapsed / sessionDuration] is the real quotient. *)

Definition getProgress (e : engine) (now : R) : progress_info :=
  if negb (isPlaying e) || negb (audioContext e) then
    mkProgress 0 (sessionDuration e) 0
  else
    let elapsed := now - sessionStartTime e in
    let remaining := Rmax 0 (sessionDuration e - elapsed) in
    let progress := Rmin 1 (elapsed / sessionDuration e) in
    mkProgress elapsed remaining progress.

(* ================================================================= *)
(** ** The per-frame tick *)

Definition applyModulation (e : engine) (now progress : R) : list effect :=
  match currentProfile e with
  | None => []
  | Some p =>
      if negb (oscillator e) then []
      else
        let params := modulation_lookup (modulation_type p) in
        let intensity :=
          intensity p + modulationOffset (proModeAdjustments e) in
        if Rgtb (lfoFreq params) 0 then
          let time := now in
          let lfoValue := sin (time * lfoFreq params * 2 * PI) in
          let modAmount := lfoValue * lfoDepth params * intensity * 20 in
          let baseFreqValue := interpolateCurve (curve p) progress in
          let baseFreq := mapToFrequency baseFreqValue in
          [SetTargetAtTime OscillatorFrequency (baseFreq + modAmount) now 0.05]
        else []
  end.

(** The loop over [silenceBlocks] with its [break]. *)

Fixpoint isSilent (silenceBlocks : list block) (currentTimeSeconds : R) : bool :=
  match silenceBlocks with
  | [] => false
  | b :: rest =>
      if Rgeb currentTimeSeconds (start b)
         && Rltb currentTimeSeconds (start b + block_duration b)
      then true
      else isSilent rest currentTimeSeconds
  end.

Definition applySilenceBlocks (e : engine) (now progress : R) : list effect :=
  match currentProfile e with
  | None => []
  | Some p =>
      if negb (silenceGate e) then []
      else
        let silenceBlocks := blocks p in
        let currentTimeSeconds := progress * sessionDuration e in
        let targetGain := if isSilent silenceBlocks currentTimeSeconds then 0 else 1 in
        [SetTargetAtTime SilenceGateGain targetGain now 0.05]
  end.

Definition applySubtlePanning (e : engine) (now progress : R) : list effect :=
  if negb (panner e) then []
  else
    let time := now in
    let panValue := sin (time * 0.05) * 0.1 in
    [SetTargetAtTime PannerPan panValue now 0.1].

Definition onSessionComplete (e : engine) : engine * list effect :=
  let e := stop e in
  let adj := proModeAdjustments e in
  let detail :=
    {| profileId := match currentProfile e with Some p => id p | None => None end;
       profileName := option_map name (currentProfile e);
       completed_duration := sessionDuration e;
       completed_proModeEnabled := proModeEnabled e;
       wasAdapted :=
         proModeEnabled e
         && (negb (Reqb (frequencyOffset adj) 0)
             || negb (Reqb (textureOffset adj) 0)
             || negb (Reqb (modulationOffset adj) 0)) |} in
  (e, [SessionComplete detail]).

Definition updateAudioParameters (e : engine) (now : R) : engine * list effect :=
  match currentProfile e with
  | None => (e, [])
  | Some p =>
      if negb (isPlaying e) then (e, [])
      else
        let info := getProgress e now in
        if Rleb (remaining info) 0 then onSessionComplete e
        else
          let baseFreqValue := interpolateCurve (curve p) (progress info) in
          let adjustedFreq :=
            baseFreqValue + frequencyOffset (proModeAdjustments e) in
          let fx_frequency :=
            if oscillator e then
              let targetFreq := mapToFrequency adjustedFreq in
              [SetTargetAtTime OscillatorFrequency targetFreq now 0.1]
            else [] in
          let textureValue := interpolateCurve (densityMap p) (progress info) in
          let fx_texture :=
            applyTexture e now
              (textureValue + textureOffset (proModeAdjustments e)) in
          let fx_modulation := applyModulation e now (progress info) in
          let fx_silence := applySilenceBlocks e now (progress info) in
          let fx_panning := applySubtlePanning e now (progress info) in
          (set_animationFrameId true e,
           fx_frequency ++ fx_texture ++ fx_modulation ++ fx_silence ++ fx_panning)
  end.

(** [play].  The body after [await init()] is taken as one step with the
    guards before it: a call runs to its end before the next call of the
    interface begins.  Two calls that are both suspended at
    [await init()], each having passed the [isPlaying] guard, are not
    represented. *)

Definition play (e : engine) (now : R) (g : audio_grant) : engine * list effect :=
  if isPlaying e then (e, [])
  else
    match currentProfile e with
    | None => (e, [])
    | Some _ =>
        match init e g with
        | (e1, fx_init, false) => (e1, fx_init)
        | (e1, fx_init, true) =>
            let '(e2, fx_osc) := startOscillator e1 in
            let e3 := set_isPlaying true e2 in
            let e4 := set_sessionStartTime now e3 in
            let '(e5, fx_tick) := updateAudioParameters e4 now in
            (e5, fx_init ++ fx_osc ++ fx_tick)
        end
    end.

(* ================================================================= *)
(** ** Pro Mode *)

Definition setProMode (e : engine) (enabled : bool) : engine :=
  let e := set_proModeEnabled enabled e in
  if negb enabled then set_proModeAdjustments (mkAdjustments 0 0 0) e
  else e.

Definition recordInteraction (e : engine) (now : R) : engine :=
  if negb (proModeEnabled e) || negb (isPlaying e) then e
  else
    let e := set_interactionCount (S (interactionCount e)) e in
    let elapsed := elapsed (getProgress e now) in
    let interactionsPerMinute :=
      js_div (INR (interactionCount e)) (elapsed / 60) in
    let adj := proModeAdjustments e in
    if js_gtb interactionsPerMinute 2 then
      let adj1 :=
        mkAdjustments (Rmax (-0.1) (frequencyOffset adj - 0.01))
          (textureOffset adj) (modulationOffset adj) in
      let adj2 :=
        mkAdjustments (frequencyOffset adj1)
          (Rmax (-0.1) (textureOffset adj1 - 0.01)) (modulationOffset adj1) in
      set_proModeAdjustments adj2 e
    else if Rgtb elapsed 300 && js_ltb interactionsPerMinute 0.5 then
      set_proModeAdjustments
        (mkAdjustments (frequencyOffset adj) (textureOffset adj)
           (Rmin 0.1 (modulationOffset adj + 0.005)))
        e
    else e.

(* ================================================================= *)
(** ** Preview and disposal *)

(** [previewLayer]; as in [play], the body after [await init()] is one
    step.  The timer it arms fires [previewTimeout]. *)

Definition previewLayer (e : engine) (layer : string) (v now : R)
    (g : audio_grant) : engine * list effect :=
  match init e g with
  | (e1, fx_init, false) => (e1, fx_init)
  | (e1, fx_init, true) =>
      let '(e2, fx_osc) :=
        if negb (isPlaying e1) then startOscillator e1 else (e1, []) in
      let fx_layer :=
        if String.eqb layer "baseFrequency" then
          if oscillator e2 then
            [SetTargetAtTime OscillatorFrequency (mapToFrequency v) now 0.05]
          else []
        else if String.eqb layer "texture" then applyTexture e2 now v
        else [] in
      (e2, fx_init ++ fx_osc ++ fx_layer)
  end.

Definition previewTimeout (e : engine) : engine :=
  if negb (isPlaying e) && oscillator e then set_oscillator false e else e.

Definition dispose (e : engine) : engine :=
  let e := stop e in
  let e := if audioContext e then set_audioContext false e else e in
  set_oscillator false e.

(* ================================================================= *)
(** ** Runs of the engine *)

(** A call of the public interface, or one of the two callbacks the
    engine schedules for itself. *)

Inductive op : Type :=
| OpInit (g : audio_grant)
| OpLoadProfile (p : profile)
| OpPlay (now : R) (g : audio_grant)
| OpPause
| OpStop
| OpSetMasterVolume (now volume : R)
| OpSetProMode (enabled : bool)
| OpRecordInteraction (now : R)
| OpPreviewLayer (layer : string) (v now : R) (g : audio_grant)
| OpDispose
| OpFrame (now : R)
    (* the callback given to [requestAnimationFrame]; it runs only while
       a request is pending *)
| OpPreviewTimeout.
    (* the callback given to [setTimeout] by [previewLayer] *)

Definition step (o : op) (e : engine) : engine * list effect :=
  match o with
  | OpInit g => let '(e1, fx, _) := init e g in (e1, fx)
  | OpLoadProfile p => (loadProfile e p, [])
  | OpPlay now g => play e now g
  | OpPause => (pause e, [])
  | OpStop => (stop e, [])
  | OpSetMasterVolume now volume => (e, setMasterVolume e now volume)
  | OpSetProMode enabled => (setProMode e enabled, [])
  | OpRecordInteraction now => (recordInteraction e now, [])
  | OpPreviewLayer layer v now g => previewLayer e layer v now g
  | OpDispose => (dispose e, [])
  | OpFrame now =>
      if animationFrameId e then updateAudioParameters e now else (e, [])
  | OpPreviewTimeout => (previewTimeout e, [])
  end.

(** The engine after a sequence of operations, and the effects it has
    performed on the way. *)

Fixpoint run (ops : list op) (e : engine) : engine * list effect :=
  match ops with
  | [] => (e, [])
  | o :: rest =>
      let '(e1, fx1) := step o e in
      let '(e2, fx2) := run rest e1 in
      (e2, fx1 ++ fx2)
  end.

Inductive reachable : engine -> Prop :=
| reachable_initial : reachable initial_engine
| reachable_step (o : op) (e : engine) :
    reachable e -> reachable (fst (step o e)).

(* ================================================================= *)
(** ** The profile editor of the UI controller *)

(** The editor works on the profile object that was handed to
    [loadProfile]; the functions below are its handlers, as functions on
    the part of the profile they rewrite.  Redrawing is not
    represented. *)

(** [curve.findIndex(p => Math.abs(p.time - x) < 0.05)] *)

Fixpoint findIndex_near (x : R) (c : list point) : option nat :=
  match c with
  | [] => None
  | p :: rest =>
      if Rltb (Rabs (time p - x)) 0.05 then Some 0%nat
      else option_map S (findIndex_near x rest)
  end.

(** [curve[pointIndex].value = y] *)

Fixpoint set_value (pointIndex : nat) (y : R) (c : list point) : list point :=
  match c, pointIndex with
  | [], _ => []
  | p :: rest, O => mkPoint (time p) y :: rest
  | p :: rest, S i => p :: set_value i y rest
  end.

(** [curve.sort((a, b) => a.time - b.time)]: the sort of an array is
    stable, so that points of equal time keep their order; this is the
    stable insertion sort. *)

Fixpoint insert_by_time (p : point) (c : list point) : list point :=
  match c with
  | [] => [p]
  | q :: rest =>
      if Rleb (time p) (time q) then p :: q :: rest
      else q :: insert_by_time p rest
  end.

Definition sort_by_time (c : list point) : list point :=
  fold_right insert_by_time [] c.

(** [updateCurve] of [handleCurveEditorStart].  [fx] and [fy] are the
    pointer position as fractions of the canvas,
    [(clientX - rect.left) / rect.width] and
    [(clientY - rect.top) / rect.height].  The result is the curve after
    the edit and the value given to [previewLayer('baseFrequency', _)]. *)

Definition updateCurve (c : list point) (fx fy : R) : list point * R :=
  let x := Rmax 0 (Rmin 1 fx) in
  let y := Rmax 0 (Rmin 1 (1 - fy)) in
  match findIndex_near x c with
  | None => (sort_by_time (c ++ [mkPoint x y]), y)
  | Some pointIndex => (set_value pointIndex y c, y)
  end.

(** [handleBaseFrequencyPreset]: the curve written for a preset button,
    [value] being the button's [data-value]. *)

Definition handleBaseFrequencyPreset (v : string) : list point :=
  let targetValue :=
    if String.eqb v "low" then 0.35
    else if String.eqb v "high" then 0.65
    else 0.5 in
  [mkPoint 0 targetValue; mkPoint 0.5 targetValue; mkPoint 1 targetValue].

(** [getAverageValue], and the preset button that [updateLayerControls]
    shows as checked for a curve. *)

Definition getAverageValue (c : option (list point)) : R :=
  match c with
  | None => 0.5
  | Some [] => 0.5
  | Some l => fold_left (fun sum p => sum + value p) l 0 / INR (List.length l)
  end.

Definition checked_preset (c : option (list point)) : string :=
  let avgFreq := getAverageValue c in
  if Rltb avgFreq 0.4 then "low"%string
  else if Rgtb avgFreq 0.6 then "high"%string
  else "normal"%string.

(** [handleAddSilence] and [handleRemoveSilence], on the blocks of the
    profile; [duration] is [workingProfile.duration]. *)

Definition handleAddSilence (duration : R) (bs : list block) : list block :=
  let start :=
    match bs with
    | [] => 60
    | first :: rest =>
        let lastBlock := last rest first in
        start lastBlock + block_duration lastBlock + 120
    end in
  if Rltb (start + 10) duration then bs ++ [mkBlock start 10] else bs.

(** [blocks.splice(index, 1)] *)

Definition handleRemoveSilence (index : nat) (bs : list block) : list block :=
  firstn index bs ++ skipn (S index) bs.

Inductive silence_edit : Type :=
| AddSilence (duration : R)
| RemoveSilence (index : nat).

Definition edit_silence (bs : list block) (ed : silence_edit) : list block :=
  match ed with
  | AddSilence duration => handleAddSilence duration bs
  | RemoveSilence index => handleRemoveSilence index bs
  end.

(* ================================================================= *)
(** ** The data model *)

(** The data model keeps its data in [localStorage] as JSON text.  The
    embedding keeps, for each key, the value the text stands for, or
    [None] when the key is absent; a write is taken to succeed. *)

(** [getHistory], and [addToHistory] with the reading [now] of
    [Date.now()]: the new record, the session with its timestamp, goes
    to the front and the list is cut to 50 records. *)

Definition getHistory {A : Type} (stored : option (list (A * Z)))
  : list (A * Z) :=
  match stored with
  | Some history => history
  | None => []
  end.

Definition addToHistory {A : Type} (stored : option (list (A * Z)))
    (session : A) (now : Z) : option (list (A * Z)) :=
  let history := (session, now) :: getHistory stored in
  let history :=
    if (50 <? List.length history)%nat then firstn 50 history else history in
  Some history.

Section ProfileStore.

(** The stored profiles: any type of profile object with an [id] that is
    a string or [null], and the constant list of presets. *)

Variable P : Type.
Variable profile_id : P -> option string.
Variable PRESET_PROFILES : list P.

Record storage : Type := mkStorage {
  PROFILES : option (list P);
  CURRENT_PROFILE : option string
}.

(** [p.id === id] *)

Definition has_id (id : string) (p : P) : bool :=
  match profile_id p with
  | Some i => String.eqb i id
  | None => false
  end.

Definition getUserProfiles (st : storage) : list P :=
  match PROFILES st with
  | Some profiles => profiles
  | None => []
  end.

Definition getAllProfiles (st : storage) : list P :=
  PRESET_PROFILES ++ getUserProfiles st.

Definition getProfile (st : storage) (id : string) : option P :=
  find (has_id id) (getAllProfiles st).

Definition saveUserProfiles (st : storage) (profiles : list P) : storage :=
  mkStorage (Some profiles) (CURRENT_PROFILE st).

Definition getCurrentProfileId (st : storage) : option string :=
  CURRENT_PROFILE st.

(** [setCurrentProfileId]: [null] and the empty string remove the key. *)

Definition setCurrentProfileId (st : storage) (id : option string) : storage :=
  match id with
  | Some i =>
      if String.eqb i "" then mkStorage (PROFILES st) None
      else mkStorage (PROFILES st) (Some i)
  | None => mkStorage (PROFILES st) None
  end.

Definition deleteProfile (st : storage) (id : string) : storage * bool :=
  if existsb (has_id id) PRESET_PROFILES then (st, false)
  else
    let profiles := getUserProfiles st in
    let filtered := List.filter (fun p => negb (has_id id p)) profiles in
    if (List.length filtered =? List.length profiles)%nat then (st, false)
    else
      let st := saveUserProfiles st filtered in
      let st :=
        match getCurrentProfileId st with
        | Some current =>
            if String.eqb current id then setCurrentProfileId st None else st
        | None => st
        end in
      (st, true).

End ProfileStore.

Arguments PROFILES {P} _.
Arguments CURRENT_PROFILE {P} _.
Arguments mkStorage {P} _ _.
Arguments getUserProfiles {P} _.
Arguments getCurrentProfileId {P} _.

(** [formatTime].  [x % y] has the sign of [x]: it is [x] minus [y]
    times the quotient cut towards zero.  [toString] of a whole number
    is its decimal numeral (below 10^21), and [padStart(2, '0')] puts
    zeros in front of a shorter text. *)

Definition js_trunc (x : R) : Z :=
  if Rle_dec 0 x then Zfloor x else Zceil x.

Definition js_rem (x y : R) : R := x - y * IZR (js_trunc (x / y)).

Definition toString (z : Z) : string := NilZero.string_of_int (Z.to_int z).

Definition padStart (targetLength : nat) (s : string) : string :=
  (string_of_list_ascii (repeat "0"%char (targetLength - String.length s))
   ++ s)%string.

Definition formatTime (seconds : R) : string :=
  let mins := Zfloor (seconds / 60) in
  let secs := Zfloor (js_rem seconds 60) in
  (padStart 2 (toString mins) ++ ":" ++ padStart 2 (toString secs))%string.

(* ================================================================= *)
(** ** Vocabulary of the properties *)

(** Least and greatest element of a non-empty list [x :: l]. *)


(** Extreme values and extreme times of the points of a curve (of an
    empty curve: [0]). *)


(** [p] lies within the time span of the curve. *)


(** [t] lies in the half-open interval of a silence block. *)

Definition in_block (t : R) (b : block) : Prop :=
  start b <= t < start b + block_duration b.

(** The bounds of the adaptive offsets. *)

Definition within_bounds (a : adjustments) : Prop :=
  -0.1 <= frequencyOffset a <= 0.1 /\
  -0.1 <= textureOffset a <= 0.1 /\
  -0.1 <= modulationOffset a <= 0.1.

Definition any_offset_nonzero (a : adjustments) : Prop :=
  frequencyOffset a <> 0 \/ textureOffset a <> 0 \/ modulationOffset a <> 0.

(** The tighter bounds the controller keeps: it only lowers the
    frequency and texture offsets and only raises the modulation offset,
    and outside Pro Mode it holds all three at zero. *)

Definition one_sided (a : adjustments) : Prop :=
  -0.1 <= frequencyOffset a <= 0 /\
  -0.1 <= textureOffset a <= 0 /\
  0 <= modulationOffset a <= 0.1.

Definition adaptive_invariant (e : engine) : Prop :=
  one_sided (proModeAdjustments e) /\
  (proModeEnabled e = false -> proModeAdjustments e = mkAdjustments 0 0 0).

(** The Pro Mode variables of the engine. *)

Definition adaptive_state (e : engine) : bool * nat * adjustments :=
  (proModeEnabled e, interactionCount e, proModeAdjustments e).

(** [x > c] and [x < c] on the result of a division, as propositions. *)

Definition js_gt (x : jsnum) (c : R) : Prop :=
  match x with
  | Finite r => c < r
  | PosInf => True
  | NegInf => False
  | NaN => False
  end.

Definition js_lt (x : jsnum) (c : R) : Prop :=
  match x with
  | Finite r => r < c
  | PosInf => False
  | NegInf => True
  | NaN => False
  end.

(** While a session plays, the audio context and the oscillator exist and
    a profile is loaded with its duration copied; a frame callback is
    only pending while a session plays. *)

Definition session_invariant (e : engine) : Prop :=
  (isPlaying e = true ->
     audioContext e = true /\ oscillator e = true /\ currentProfile e <> None) /\
  (animationFrameId e = true -> isPlaying e = true) /\
  (forall p, currentProfile e = Some p -> sessionDuration e = duration p).

(** The deviation in Hz added by the LFO at phase time [t]. *)

Definition modulation_deviation (p : profile) (a : adjustments) (t : R) : R :=
  let params := modulation_lookup (modulation_type p) in
  sin (2 * PI * lfoFreq params * t) * lfoDepth params
  * (intensity p + modulationOffset a) * 20.

(** The profile of the project's README, and a short Pro Mode session on
    it: load, enable Pro Mode, play at time 0, one interaction at 1 s. *)

Definition readme_profile : profile :=
  {| id := Some "profile-id"%string;
     name := "focus"%string;
     duration := 1500;
     curve := Some [mkPoint 0 0.4];
     densityMap := Some [mkPoint 0 0.3];
     modulation_type := "gentle"%string;
     intensity := 0.3;
     blocks := [mkBlock 420 4] |}.

Definition playing_session : list op :=
  [ OpLoadProfile readme_profile;
    OpSetProMode true;
    OpPlay 0 Running ].

Definition adapted_session : list op :=
  playing_session ++ [OpRecordInteraction 1].

(** The completion signal of that session. *)

Definition adapted_completion : completion :=
  {| profileId := Some "profile-id"%string;
     profileName := Some "focus"%string;
     completed_duration := 1500;
     completed_proModeEnabled := true;
     wasAdapted := true |}.

(** A curve whose points are out of order and share a time. *)

Definition unsorted_curve : list point :=
  [mkPoint 0.5 0.2; mkPoint 0.5 0.9; mkPoint 0 0.4; mkPoint 1 0.6].

(** The extremes of a curve in binary64, and a curve of two points that
    falls from 0.5 to 0.1. *)

Definition max_value64 (c : list point64) : float :=
  match map value64 c with [] => 0%float | v :: vs => maximum64 v vs end.


(** The times of a curve increase strictly from each point to the
    next. *)

Fixpoint increasing (c : list point) : Prop :=
  match c with
  | a :: ((b :: _) as rest) => time a < time b /\ increasing rest
  | _ => True
  end.

(** The straight line through two points, at [p]. *)

Definition chord (a b : point) (p : R) : R :=
  value a + (value b - value a) * ((p - time a) / (time b - time a)).

(** The statement [Math.max(-0.1, x - 0.01)] by which
    [recordInteraction] lowers an offset. *)

Definition lower_offset (x : R) : R := Rmax (-0.1) (x - 0.01).

(** [recordInteraction] called at each of the given clock readings, in
    order. *)

Definition interactions (times : list R) (e : engine) : engine :=
  fold_left recordInteraction times e.

(** The engine in the middle of the session [playing_session]. *)

Definition playing_engine : engine :=
  {| audioContext := true;
     oscillator := true;
     isPlaying := true;
     currentProfile := Some readme_profile;
     sessionStartTime := 0;
     sessionDuration := 1500;
     animationFrameId := true;
     proModeEnabled := true;
     interactionCount := 0;
     proModeAdjustments := mkAdjustments 0 0 0 |}.

(** The base-frequency curve of the preset [preset-focus], and a curve
    of two points used to show the behaviour outside the span. *)

Definition focus_curve : list point :=
  [mkPoint 0 0.45; mkPoint 0.5 0.5; mkPoint 1 0.45].

Definition ramp_curve : list point :=
  [mkPoint 0.2 0; mkPoint 0.4 1].

(** The preset [preset-deep], whose modulation is [stable], and a
    session on it started at time 0. *)

Definition deep_profile : profile :=
  {| id := Some "preset-deep"%string;
     name := "deep"%string;
     duration := 2700;
     curve := Some [mkPoint 0 0.35; mkPoint 0.3 0.4; mkPoint 0.7 0.4;
                    mkPoint 1 0.35];
     densityMap := Some [mkPoint 0 0.15];
     modulation_type := "stable"%string;
     intensity := 0.1;
     blocks := [] |}.

Definition deep_session : list op :=
  [OpLoadProfile deep_profile; OpPlay 0 Running].

(** A point of a curve with time and value in [0,1]. *)

Definition unit_point (q : point) : Prop :=
  0 <= time q <= 1 /\ 0 <= value q <= 1.

(** Silence blocks in order, none of negative duration, each ending
    before the next begins. *)

Fixpoint separated (bs : list block) : Prop :=
  match bs with
  | a :: ((b :: _) as rest) =>
      start a + block_duration a <= start b /\ separated rest
  | _ => True
  end.

Definition tidy (bs : list block) : Prop :=
  separated bs /\ Forall (fun b => 0 <= block_duration b) bs.

(* ================================================================= *)
(** * Properties *)

(** ** Comparisons *)

Lemma Rleb_true (x y : R) : Rleb x y = true <-> x <= y.
Proof. unfold Rleb. destruct (Rle_dec x y); split; intros; easy. Qed.

Lemma Rleb_false (x y : R) : Rleb x y = false <-> y < x.
Proof.
  unfold Rleb. destruct (Rle_dec x y); split; intros; try easy; lra.
Qed.

Lemma Rltb_true (x y : R) : Rltb x y = true <-> x < y.
Proof. unfold Rltb. destruct (Rlt_dec x y); split; intros; easy. Qed.

Lemma Rltb_false (x y : R) : Rltb x y = false <-> y <= x.
Proof.
  unfold Rltb. destruct (Rlt_dec x y); split; intros; try easy; lra.
Qed.

Lemma Rgeb_true (x y : R) : Rgeb x y = true <-> y <= x.
Proof. apply Rleb_true. Qed.

Lemma Rgeb_false (x y : R) : Rgeb x y = false <-> x < y.
Proof. apply Rleb_false. Qed.

Lemma Rgtb_true (x y : R) : Rgtb x y = true <-> y < x.
Proof. apply Rltb_true. Qed.

Lemma Rgtb_false (x y : R) : Rgtb x y = false <-> x <= y.
Proof. apply Rltb_false. Qed.

Lemma Reqb_true (x y : R) : Reqb x y = true <-> x = y.
Proof. unfold Reqb. destruct (Req_dec_T x y); split; intros; easy. Qed.

Lemma Reqb_false (x y : R) : Reqb x y = false <-> x <> y.
Proof. unfold Reqb. destruct (Req_dec_T x y); split; intros; easy. Qed.

(** Case analysis on every comparison in sight. *)

Ltac cmp_cases :=
  repeat match goal with
    | H : Rleb _ _ = true |- _ => apply Rleb_true in H
    | H : Rleb _ _ = false |- _ => apply Rleb_false in H
    | H : Rltb _ _ = true |- _ => apply Rltb_true in H
    | H : Rltb _ _ = false |- _ => apply Rltb_false in H
    | H : Rgeb _ _ = true |- _ => apply Rgeb_true in H
    | H : Rgeb _ _ = false |- _ => apply Rgeb_false in H
    | H : Rgtb _ _ = true |- _ => apply Rgtb_true in H
    | H : Rgtb _ _ = false |- _ => apply Rgtb_false in H
    | H : Reqb _ _ = true |- _ => apply Reqb_true in H
    | H : Reqb _ _ = false |- _ => apply Reqb_false in H
    end.

(** Decide a comparison between closed expressions. *)

Ltac cmp_true c := replace c with true by (symmetry;
  first [ apply Rleb_true | apply Rltb_true | apply Rgeb_true
        | apply Rgtb_true | apply Reqb_true ]; lra).
Ltac cmp_false c := replace c with false by (symmetry;
  first [ apply Rleb_false | apply Rltb_false | apply Rgeb_false
        | apply Rgtb_false | apply Reqb_false ]; lra).

(* ================================================================= *)
(** ** Curve interpolator *)

Section Interpolator.

Implicit Types (c : list point) (p : R) (a b q : point).








(** What the scan returns brackets the progress. *)

Lemma find_bracket_Some c p a b :
  find_bracket c p = Some (a, b) ->
  In a c /\ In b c /\ time a <= p <= time b.
Proof.
  induction c as [|x c IH]; simpl; [easy |].
  destruct c as [|y c]; [easy |].
  destruct (Rleb (time x) p && Rgeb (time y) p) eqn:E.
  - intros [= <- <-]. apply andb_prop in E as [E1 E2]. cmp_cases.
    repeat split; simpl; auto.
  - intros H. destruct (IH H) as (Ha & Hb & Ht).
    repeat split; try (now right); apply Ht.
Qed.

(** When the scan fails, every point after one that is not later than
    the progress is strictly earlier than it. *)


(** When the scan fails and some point is not later than the progress,
    the last point is not later than it either. *)



(** The blend parameter of a bracket, in either order of its times. *)


(** The two points the interpolation blends on a curve of two points or
    more: the pair the scan found, or the first and the last point.  At
    a progress within the time span of the curve their times enclose the
    progress, in one order or the other. *)


(** C9.  An empty or absent curve interpolates to the neutral default
    0.5 at every progress, and a curve of one point to the value of
    that point. *)

Theorem interpolateCurve_degenerate p :
  interpolateCurve None p = 0.5 /\
  interpolateCurve (Some []) p = 0.5 /\
  forall q, interpolateCurve (Some [q]) p = value q.
Proof. repeat split. Qed.

(** C2.  On a curve of at least two points, in any order and with
    repeated times allowed, the interpolated value at a progress in
    [0,1] that lies within the time span of the curve is the linear
    blend [lower.value + (upper.value - lower.value) * t] of two points
    of the curve whose times enclose the progress, with the parameter
    [t = (progress - lower.time) / (upper.time - lower.time)] in [0,1];
    it is [lower.value] when the two times are equal.  Both blended
    values lie between the least and the greatest value of the points.
    (The blend itself is rounded by the engine and can leave that range
    by the last binary digit: see [interpolateCurve64_below_least_value].) *)


(** The engine's own arithmetic on the curve [{0, 0.5}, {1, 0.1}] at
    progress 1, which is within [0,1] and within the time span: the
    result, 0.09999999999999998, is below the least value 0.1 of the
    points. *)


End Interpolator.

(* ================================================================= *)
(** ** Unit mappers *)

Section Mappers.

Lemma frequency_ratio : 1 < FREQ_MAX / FREQ_MIN.
Proof. unfold FREQ_MAX, FREQ_MIN. lra. Qed.

Lemma clamp_inside (v : R) : 0 <= v <= 1 -> Rmax 0 (Rmin 1 v) = v.
Proof.
  intros [H0 H1]. rewrite (Rmin_right 1 v H1). now apply Rmax_right.
Qed.

Lemma clamp_below (v : R) : v <= 0 -> Rmax 0 (Rmin 1 v) = 0.
Proof.
  intros H. rewrite (Rmin_right 1 v) by lra. now apply Rmax_left.
Qed.

Lemma clamp_above (v : R) : 1 <= v -> Rmax 0 (Rmin 1 v) = 1.
Proof.
  intros H. rewrite (Rmin_left 1 v H). apply Rmax_right. lra.
Qed.

Lemma mapToFrequency_inside (v : R) :
  0 <= v <= 1 -> mapToFrequency v = 80 * Rpower (400 / 80) v.
Proof. intros H. unfold mapToFrequency. now rewrite clamp_inside. Qed.

Lemma mapToFrequency_lt (u v : R) :
  0 <= u -> u < v -> v <= 1 -> mapToFrequency u < mapToFrequency v.
Proof.
  intros Hu Huv Hv. unfold mapToFrequency.
  rewrite !clamp_inside by lra.
  apply Rmult_lt_compat_l; [unfold FREQ_MIN; lra |].
  apply Rpower_lt; [apply frequency_ratio | exact Huv].
Qed.

(** C7.  The frequency mapper sends 0 to 80 Hz and 1 to 400 Hz, is
    [80 * (400/80)^v] at the clamped argument (the argument itself on
    [0,1], 0 below it and 1 above it), and is strictly increasing on
    [0,1]. *)

Theorem mapToFrequency_exponential :
  mapToFrequency 0 = 80 /\
  mapToFrequency 1 = 400 /\
  (forall v, 0 <= v <= 1 -> mapToFrequency v = 80 * Rpower (400 / 80) v) /\
  (forall v, v <= 0 -> mapToFrequency v = 80 * Rpower (400 / 80) 0) /\
  (forall v, 1 <= v -> mapToFrequency v = 80 * Rpower (400 / 80) 1) /\
  (forall u v, 0 <= u -> u < v -> v <= 1 ->
     mapToFrequency u < mapToFrequency v).
Proof.
  assert (Hpos : 0 < 400 / 80) by lra.
  repeat split.
  - rewrite mapToFrequency_inside by lra. rewrite Rpower_O by exact Hpos. lra.
  - rewrite mapToFrequency_inside by lra. rewrite Rpower_1 by exact Hpos. lra.
  - apply mapToFrequency_inside.
  - intros v Hv. unfold mapToFrequency. now rewrite clamp_below.
  - intros v Hv. unfold mapToFrequency. now rewrite clamp_above.
  - apply mapToFrequency_lt.
Qed.

End Mappers.

(* ================================================================= *)
(** ** Operations that leave the Pro Mode variables alone *)

Section Frame.

Ltac frame_cases :=
  repeat match goal with
    | |- context [if ?b then _ else _] => destruct b
    | |- context [match ?x with _ => _ end] => destruct x
    end; reflexivity.

Lemma pause_adaptive e : adaptive_state (pause e) = adaptive_state e.
Proof. unfold pause, adaptive_state. simpl. frame_cases. Qed.

Lemma stop_adaptive e : adaptive_state (stop e) = adaptive_state e.
Proof. unfold stop. rewrite <- (pause_adaptive e). reflexivity. Qed.

Lemma init_adaptive e g :
  adaptive_state (fst (fst (init e g))) = adaptive_state e.
Proof. unfold init. frame_cases. Qed.

Lemma onSessionComplete_adaptive e :
  adaptive_state (fst (onSessionComplete e)) = adaptive_state e.
Proof. unfold onSessionComplete. simpl. apply stop_adaptive. Qed.

Lemma updateAudioParameters_adaptive e now :
  adaptive_state (fst (updateAudioParameters e now)) = adaptive_state e.
Proof.
  unfold updateAudioParameters.
  destruct (currentProfile e); [| reflexivity].
  destruct (negb (isPlaying e)); [reflexivity |].
  destruct (Rleb _ 0); [apply onSessionComplete_adaptive | reflexivity].
Qed.

Lemma play_adaptive e now g :
  adaptive_state (fst (play e now g)) = adaptive_state e.
Proof.
  unfold play.
  destruct (isPlaying e); [reflexivity |].
  destruct (currentProfile e); [| reflexivity].
  pose proof (init_adaptive e g) as Hinit.
  destruct (init e g) as [[e1 fx] [|]]; simpl in Hinit; [| exact Hinit].
  unfold startOscillator.
  match goal with
  | |- context [updateAudioParameters ?x now] =>
      pose proof (updateAudioParameters_adaptive x now) as Htick;
      destruct (updateAudioParameters x now) as [e5 fx5]
  end.
  simpl in *. rewrite Htick. exact Hinit.
Qed.

Lemma previewLayer_adaptive e layer v now g :
  adaptive_state (fst (previewLayer e layer v now g)) = adaptive_state e.
Proof.
  unfold previewLayer.
  pose proof (init_adaptive e g) as Hinit.
  destruct (init e g) as [[e1 fx] [|]]; simpl in Hinit; [| exact Hinit].
  destruct (negb (isPlaying e1)); simpl; exact Hinit.
Qed.

Lemma previewTimeout_adaptive e :
  adaptive_state (previewTimeout e) = adaptive_state e.
Proof. unfold previewTimeout. frame_cases. Qed.

Lemma dispose_adaptive e : adaptive_state (dispose e) = adaptive_state e.
Proof.
  unfold dispose. rewrite <- (stop_adaptive e).
  destruct (audioContext (stop e)); reflexivity.
Qed.

Lemma adaptive_invariant_ext e e' :
  adaptive_state e' = adaptive_state e ->
  adaptive_invariant e -> adaptive_invariant e'.
Proof.
  unfold adaptive_state, adaptive_invariant. intros [= -> _ ->]. auto.
Qed.

End Frame.

(* ================================================================= *)
(** ** Session lifecycle *)

Section Lifecycle.

Ltac split_ifs :=
  repeat match goal with
    | |- context [if ?b then _ else _] => destruct b eqn:?
    | |- context [match ?x with _ => _ end] => destruct x eqn:?
    end.

Lemma updateAudioParameters_session e now :
  session_invariant e -> session_invariant (fst (updateAudioParameters e now)).
Proof.
  destruct e as [ctx osc playing prof t0 dur frame pro n adj].
  unfold session_invariant, updateAudioParameters, onSessionComplete, stop,
    pause, getProgress; simpl.
  intros (H1 & H2 & H3).
  destruct prof; [| simpl; auto].
  destruct playing; simpl; [| auto].
  destruct ctx, osc; simpl; split_ifs; simpl; intuition congruence.
Qed.

Lemma step_session o e :
  session_invariant e -> session_invariant (fst (step o e)).
Proof.
  destruct o; try (apply updateAudioParameters_session).
  all: try (destruct e as [ctx osc playing prof t0 dur frame pro n adj];
    unfold session_invariant, step, init, loadProfile, pause, stop,
      setMasterVolume, setProMode, recordInteraction, previewLayer,
      previewTimeout, dispose, startOscillator, getProgress; simpl;
    intros (H1 & H2 & H3);
    try (match goal with g : audio_grant |- _ => destruct g end);
    destruct ctx, osc, playing, frame; simpl in *;
    split_ifs; simpl in *; intuition congruence).
  - (* play *)
    intros H. unfold step, play.
    destruct (isPlaying e) eqn:Ep; [exact H |].
    destruct (currentProfile e) eqn:Ec; [| exact H].
    destruct e as [ctx osc playing prof t0 dur frame pro n adj].
    simpl in Ep, Ec. subst playing prof.
    destruct H as (H1 & H2 & H3). simpl in H1, H2, H3.
    unfold init; simpl.
    destruct ctx; simpl.
    + match goal with
      | |- context [updateAudioParameters ?x now] =>
          pose proof (updateAudioParameters_session x now) as Ht;
          destruct (updateAudioParameters x now) as [e5 fx5]
      end.
      simpl in *. apply Ht. unfold session_invariant; simpl.
      intuition congruence.
    + destruct g; simpl; try (unfold session_invariant; simpl; intuition congruence).
      match goal with
      | |- context [updateAudioParameters ?x now] =>
          pose proof (updateAudioParameters_session x now) as Ht;
          destruct (updateAudioParameters x now) as [e5 fx5]
      end.
      simpl in *. apply Ht. unfold session_invariant; simpl.
      intuition congruence.
  - (* frame *)
    intros H. simpl. destruct (animationFrameId e); [| exact H].
    now apply updateAudioParameters_session.
Qed.

Lemma reachable_session e : reachable e -> session_invariant e.
Proof.
  induction 1 as [|o e _ IH].
  - unfold session_invariant; simpl. intuition congruence.
  - now apply step_session.
Qed.

Lemma run_app ops1 ops2 e :
  run (ops1 ++ ops2) e =
  let '(e1, fx1) := run ops1 e in
  let '(e2, fx2) := run ops2 e1 in
  (e2, fx1 ++ fx2).
Proof.
  revert e. induction ops1 as [|o ops1 IH]; intros e; simpl.
  - now destruct (run ops2 e).
  - destruct (step o e) as [e1 fx1]. rewrite IH.
    destruct (run ops1 e1) as [e2 fx2], (run ops2 e2) as [e3 fx3].
    now rewrite app_assoc.
Qed.

Lemma reachable_run ops e : reachable e -> reachable (fst (run ops e)).
Proof.
  revert e. induction ops as [|o ops IH]; intros e He; [exact He |].
  simpl. pose proof (reachable_step o e He) as H1.
  destruct (step o e) as [e1 fx1]. simpl in H1.
  specialize (IH e1 H1). now destruct (run ops e1).
Qed.

Lemma reachable_iff_run e :
  reachable e <-> exists ops, e = fst (run ops initial_engine).
Proof.
  split.
  - induction 1 as [|o e _ [ops ->]]; [now exists [] |].
    exists (ops ++ [o]). rewrite run_app.
    destruct (run ops initial_engine) as [e1 fx1]. simpl.
    now destruct (step o e1).
  - intros [ops ->]. apply reachable_run. constructor.
Qed.

End Lifecycle.

(* ================================================================= *)
(** ** Adaptive controller (Pro Mode) *)

Section AdaptiveController.

Lemma js_gtb_true (x : jsnum) (c : R) : js_gtb x c = true <-> js_gt x c.
Proof.
  destruct x; simpl; try apply Rgtb_true; split; intros; easy.
Qed.

Lemma js_ltb_true (x : jsnum) (c : R) : js_ltb x c = true <-> js_lt x c.
Proof.
  destruct x; simpl; try apply Rltb_true; split; intros; easy.
Qed.

(** The rate is the real quotient as soon as some time has elapsed,
    and infinite for an interaction at the very start of the session. *)

Lemma js_div_finite (a b : R) : b <> 0 -> js_div a b = Finite (a / b).
Proof. intros H. unfold js_div. now destruct (Req_dec_T b 0). Qed.

Lemma js_div_zero (a : R) : 0 < a -> js_div a 0 = PosInf.
Proof.
  intros H. unfold js_div.
  destruct (Req_dec_T 0 0); [| easy]. now destruct (Rlt_dec 0 a).
Qed.

Lemma clamp_down (x : R) :
  -0.1 <= x <= 0 -> -0.1 <= Rmax (-0.1) (x - 0.01) <= 0.
Proof. intros H. unfold Rmax. destruct (Rle_dec _ _); lra. Qed.

Lemma clamp_up (x : R) :
  0 <= x <= 0.1 -> 0 <= Rmin 0.1 (x + 0.005) <= 0.1.
Proof. intros H. unfold Rmin. destruct (Rle_dec _ _); lra. Qed.

Lemma setProMode_invariant e enabled :
  adaptive_invariant e -> adaptive_invariant (setProMode e enabled).
Proof.
  destruct e as [ctx osc playing prof t0 dur frame pro n adj].
  unfold adaptive_invariant, one_sided, setProMode; simpl.
  intros [Hb Hz]. destruct enabled; simpl.
  - split; [exact Hb | easy].
  - split; [lra | reflexivity].
Qed.

Lemma loadProfile_invariant e p :
  adaptive_invariant e -> adaptive_invariant (loadProfile e p).
Proof.
  unfold adaptive_invariant, one_sided, loadProfile; simpl.
  intros _. split; [lra | reflexivity].
Qed.

Lemma recordInteraction_invariant e now :
  adaptive_invariant e -> adaptive_invariant (recordInteraction e now).
Proof.
  destruct e as [ctx osc playing prof t0 dur frame pro n adj].
  unfold adaptive_invariant, one_sided, recordInteraction; simpl.
  intros [(Hf & Ht & Hm) Hz].
  destruct pro; simpl; [| now split].
  destruct playing; simpl; [| now split].
  destruct (js_gtb _ 2); simpl.
  - split; [| easy]. repeat split; try apply clamp_down; tauto.
  - destruct (Rgtb _ 300 && js_ltb _ 0.5); simpl; [| now split].
    split; [| easy]. repeat split; try apply clamp_up; tauto.
Qed.

Lemma step_invariant o e :
  adaptive_invariant e -> adaptive_invariant (fst (step o e)).
Proof.
  intros H. destruct o; simpl.
  - apply (adaptive_invariant_ext e); [| exact H].
    rewrite <- (init_adaptive e g). now destruct (init e g) as [[e1 fx] b].
  - now apply loadProfile_invariant.
  - apply (adaptive_invariant_ext e); [apply play_adaptive | exact H].
  - apply (adaptive_invariant_ext e); [apply pause_adaptive | exact H].
  - apply (adaptive_invariant_ext e); [apply stop_adaptive | exact H].
  - exact H.
  - now apply setProMode_invariant.
  - now apply recordInteraction_invariant.
  - apply (adaptive_invariant_ext e); [apply previewLayer_adaptive | exact H].
  - apply (adaptive_invariant_ext e); [apply dispose_adaptive | exact H].
  - destruct (animationFrameId e); [| exact H].
    apply (adaptive_invariant_ext e);
      [apply updateAudioParameters_adaptive | exact H].
  - apply (adaptive_invariant_ext e); [apply previewTimeout_adaptive | exact H].
Qed.

Lemma initial_invariant : adaptive_invariant initial_engine.
Proof.
  unfold adaptive_invariant, one_sided; simpl. split; [lra | reflexivity].
Qed.

Lemma reachable_invariant e : reachable e -> adaptive_invariant e.
Proof.
  induction 1 as [|o e _ IH];
    [apply initial_invariant | now apply step_invariant].
Qed.

(** C4.  After any finite sequence of operations from the initial
    state, each of the three adaptive offsets is within [-0.1, 0.1]. *)

Theorem offsets_within_bounds (ops : list op) :
  within_bounds (proModeAdjustments (fst (run ops initial_engine))).
Proof.
  assert (H : reachable (fst (run ops initial_engine)))
    by (apply reachable_run; constructor).
  apply reachable_invariant in H as [(Hf & Ht & Hm) _].
  unfold within_bounds. lra.
Qed.

(** C10.  In every reachable state the frequency and texture offsets
    are in [-0.1, 0], the modulation offset is in [0, 0.1], and with
    Pro Mode disabled all three offsets are exactly 0. *)

Theorem offsets_one_sided e :
  reachable e ->
  -0.1 <= frequencyOffset (proModeAdjustments e) <= 0 /\
  -0.1 <= textureOffset (proModeAdjustments e) <= 0 /\
  0 <= modulationOffset (proModeAdjustments e) <= 0.1 /\
  (proModeEnabled e = false ->
     frequencyOffset (proModeAdjustments e) = 0 /\
     textureOffset (proModeAdjustments e) = 0 /\
     modulationOffset (proModeAdjustments e) = 0).
Proof.
  intros H. apply reachable_invariant in H as [(Hf & Ht & Hm) Hz].
  repeat (split; [tauto |]).
  intros Hoff. rewrite (Hz Hoff). repeat split.
Qed.

(** C8.  [setProMode(false)] sets the three offsets to exactly 0, and
    [loadProfile] sets the three offsets and the interaction count to 0,
    from every state of the engine, playing or not. *)

Theorem adaptive_state_reset e :
  proModeAdjustments (setProMode e false) = mkAdjustments 0 0 0 /\
  forall p,
    proModeAdjustments (loadProfile e p) = mkAdjustments 0 0 0 /\
    interactionCount (loadProfile e p) = 0%nat.
Proof. repeat split. Qed.

(** C5.  [recordInteraction] leaves the state as it is unless Pro Mode
    is enabled and a session is playing.  Otherwise it increments the
    interaction count, takes the rate as the count divided by the
    elapsed minutes, and: with a rate above 2 lowers the frequency and
    texture offsets by 0.01, floored at -0.1; else, after more than 300
    elapsed seconds with a rate below 0.5, raises the modulation offset
    by 0.005, capped at 0.1; else changes no offset. *)

Theorem recordInteraction_cases e now :
  reachable e ->
  (proModeEnabled e = false \/ isPlaying e = false ->
     recordInteraction e now = e) /\
  (proModeEnabled e = true -> isPlaying e = true ->
     let count := S (interactionCount e) in
     let elapsedSeconds := now - sessionStartTime e in
     let rate := js_div (INR count) (elapsedSeconds / 60) in
     let a := proModeAdjustments e in
     let e' := recordInteraction e now in
     interactionCount e' = count /\
     (js_gt rate 2 ->
        proModeAdjustments e' =
        mkAdjustments (Rmax (-0.1) (frequencyOffset a - 0.01))
          (Rmax (-0.1) (textureOffset a - 0.01)) (modulationOffset a)) /\
     (~ js_gt rate 2 -> elapsedSeconds > 300 -> js_lt rate 0.5 ->
        proModeAdjustments e' =
        mkAdjustments (frequencyOffset a) (textureOffset a)
          (Rmin 0.1 (modulationOffset a + 0.005))) /\
     (~ js_gt rate 2 -> ~ (elapsedSeconds > 300 /\ js_lt rate 0.5) ->
        proModeAdjustments e' = a)).
Proof.
  intros Hreach. apply reachable_session in Hreach as [Hplay _].
  split.
  - unfold recordInteraction. intros [-> | ->]; [reflexivity |].
    now rewrite orb_true_r.
  - intros Hpro Hp. destruct (Hplay Hp) as (Hctx & _).
    destruct e as [ctx osc playing prof t0 dur frame pro n adj].
    simpl in Hpro, Hp, Hctx. subst ctx playing pro.
    unfold recordInteraction, getProgress; simpl.
    set (rate := js_div _ _).
    assert (Hfinish : forall P Q : Prop, P -> Q -> ~ (P /\ Q) -> False) by tauto.
    destruct (js_gtb rate 2) eqn:Egt; simpl.
    + apply js_gtb_true in Egt.
      repeat split; intros; try reflexivity; contradiction.
    + assert (Hngt : ~ js_gt rate 2)
        by (intros Hgt; apply js_gtb_true in Hgt; congruence).
      destruct (Rgtb (now - t0) 300) eqn:E300; simpl; cmp_cases.
      * destruct (js_ltb rate 0.5) eqn:Elt; simpl.
        -- apply js_ltb_true in Elt.
           repeat split; intros; try reflexivity; try contradiction.
           exfalso. eapply Hfinish; [| exact Elt | eassumption]. lra.
        -- assert (Hnlt : ~ js_lt rate 0.5)
             by (intros Hlt; apply js_ltb_true in Hlt; congruence).
           repeat split; intros; try reflexivity; contradiction.
      * repeat split; intros; try reflexivity; try contradiction; lra.
Qed.

(** The flag computed at completion, in terms of the Pro Mode
    variables. *)

Lemma wasAdapted_formula e :
  adaptive_invariant e ->
  let a := proModeAdjustments e in
  proModeEnabled e
  && (negb (Reqb (frequencyOffset a) 0)
      || negb (Reqb (textureOffset a) 0)
      || negb (Reqb (modulationOffset a) 0)) = true
  <-> any_offset_nonzero a.
Proof.
  intros [_ Hz]. unfold any_offset_nonzero. simpl.
  destruct (proModeEnabled e); simpl.
  - rewrite !orb_true_iff, !negb_true_iff, !Reqb_false. tauto.
  - rewrite (Hz eq_refl). simpl. split; [easy | lra].
Qed.

Ltac split_ifs_in H :=
  repeat match type of H with
    | context [if ?b then _ else _] => destruct b
    | context [match ?x with _ => _ end] => destruct x
    end.

Lemma tick_completion e now d :
  In (SessionComplete d) (snd (updateAudioParameters e now)) ->
  let a := proModeAdjustments e in
  wasAdapted d =
  proModeEnabled e
  && (negb (Reqb (frequencyOffset a) 0)
      || negb (Reqb (textureOffset a) 0)
      || negb (Reqb (modulationOffset a) 0)).
Proof.
  unfold updateAudioParameters.
  destruct (currentProfile e) as [p|] eqn:Ep; [| intros []].
  destruct (negb (isPlaying e)); [intros [] |].
  destruct (Rleb _ 0).
  - unfold onSessionComplete. simpl.
    intros [[= <-] | []]. simpl.
    pose proof (stop_adaptive e) as Hs. unfold adaptive_state in Hs.
    injection Hs as -> _ ->. reflexivity.
  - simpl. unfold applyTexture, applyModulation, applySilenceBlocks,
      applySubtlePanning. rewrite Ep. intros H. exfalso.
    repeat (apply in_app_or in H as [H | H]).
    all: split_ifs_in H; simpl in H; intuition discriminate.
Qed.

(** C3.  A completion signal emitted from a reachable state carries
    [wasAdapted = true] exactly when one of the three adaptive offsets
    is nonzero at that moment. *)

Theorem wasAdapted_iff_offset_nonzero e o d :
  reachable e ->
  In (SessionComplete d) (snd (step o e)) ->
  (wasAdapted d = true <-> any_offset_nonzero (proModeAdjustments e)).
Proof.
  intros Hreach Hin. apply reachable_invariant in Hreach as Hinv.
  rewrite <- (wasAdapted_formula e Hinv).
  enough (Hd : wasAdapted d =
               proModeEnabled e
               && (negb (Reqb (frequencyOffset (proModeAdjustments e)) 0)
                   || negb (Reqb (textureOffset (proModeAdjustments e)) 0)
                   || negb (Reqb (modulationOffset (proModeAdjustments e)) 0)))
    by (simpl; now rewrite Hd).
  destruct o as [g | p | t g | | | t volume | enabled | t | layer v t g | | t |];
    simpl in Hin.
  - exfalso. unfold init in Hin.
    destruct (audioContext e); [| destruct g]; simpl in Hin;
      intuition discriminate.
  - destruct Hin.
  - unfold play in Hin.
    destruct (isPlaying e); [destruct Hin |].
    destruct (currentProfile e); [| destruct Hin].
    unfold init in Hin.
    destruct (audioContext e); [| destruct g]; simpl in Hin.
    4: destruct Hin.
    3: { exfalso. intuition discriminate. }
    all: match type of Hin with
         | context [updateAudioParameters ?x ?y] =>
             pose proof (tick_completion x y) as Ht;
             destruct (updateAudioParameters x y) as [e5 fx5]
         end; simpl in *.
    + destruct Hin as [Hin | Hin]; [discriminate |]. exact (Ht d Hin).
    + repeat (destruct Hin as [Hin | Hin]; [discriminate |]). exact (Ht d Hin).
  - destruct Hin.
  - destruct Hin.
  - exfalso. unfold setMasterVolume in Hin. split_ifs_in Hin; simpl in Hin;
      intuition discriminate.
  - destruct Hin.
  - destruct Hin.
  - exfalso. unfold previewLayer, init, startOscillator, applyTexture in Hin.
    destruct (audioContext e) eqn:Ec; [| destruct g]; simpl in Hin;
      try rewrite Ec in Hin; simpl in Hin.
    all: destruct (isPlaying e); simpl in Hin.
    all: split_ifs_in Hin; simpl in Hin; intuition discriminate.
  - destruct Hin.
  - destruct (animationFrameId e); [| destruct Hin].
    exact (tick_completion e t d Hin).
  - destruct Hin.
Qed.

End AdaptiveController.

(* ================================================================= *)
(** ** Parameter scheduler *)

Section Scheduler.

Lemma targets_of_app q fx1 fx2 :
  targets_of q (fx1 ++ fx2) = targets_of q fx1 ++ targets_of q fx2.
Proof.
  induction fx1 as [|x fx1 IH]; [reflexivity |].
  destruct x as [r v | r v t0 tc | d]; simpl; try exact IH.
  destruct q, r; simpl; now rewrite ?IH.
Qed.

Lemma isSilent_true bs t : isSilent bs t = true <-> Exists (in_block t) bs.
Proof.
  induction bs as [|b bs IH]; simpl.
  - split; [easy | intros H; inversion H].
  - destruct (Rgeb t (start b) && Rltb t (start b + block_duration b)) eqn:E.
    + split; [intros _ | easy]. apply andb_prop in E as [E1 E2]. cmp_cases.
      left. unfold in_block. lra.
    + rewrite IH. split; [now right |].
      intros H. inversion H as [? ? Hb | ? ? Hbs]; subst; [| exact Hbs].
      unfold in_block in Hb.
      apply andb_false_iff in E as [E | E]; cmp_cases; lra.
Qed.

(** C6.  With a profile loaded and the audio graph in place, the
    silence-gate target at progress [progress] is 0 when the elapsed
    seconds [progress * sessionDuration] lie in the interval
    [[start, start + duration)] of some silence block and 1 otherwise;
    for the overlapping blocks {10, 5} and {12, 5} it is 0 exactly on
    [[10, 17)]. *)

Theorem silence_gate_any_block e now progress p :
  currentProfile e = Some p -> audioContext e = true ->
  let t := progress * sessionDuration e in
  exists g,
    applySilenceBlocks e now progress
    = [SetTargetAtTime SilenceGateGain g now 0.05] /\
    (Exists (in_block t) (blocks p) -> g = 0) /\
    (~ Exists (in_block t) (blocks p) -> g = 1) /\
    (blocks p = [mkBlock 10 5; mkBlock 12 5] -> (g = 0 <-> 10 <= t < 17)).
Proof.
  intros Hp Hctx t. unfold applySilenceBlocks, silenceGate.
  rewrite Hp, Hctx. simpl. fold t.
  destruct (isSilent (blocks p) t) eqn:E.
  - exists 0. apply isSilent_true in E.
    split; [reflexivity |]. split; [reflexivity |].
    split; [intros Hn; contradiction |].
    intros Hb. split; [intros _ | reflexivity].
    rewrite Hb in E.
    inversion E as [? ? H1 | ? ? E2]; subst;
      [| inversion E2 as [? ? H2 | ? ? E3]; subst; [| inversion E3]];
      unfold in_block in *; simpl in *; lra.
  - exists 1.
    assert (Hn : ~ Exists (in_block t) (blocks p)).
    { intros H. apply isSilent_true in H. congruence. }
    split; [reflexivity |]. split; [intros H; contradiction |].
    split; [reflexivity |].
    intros Hb. split; [lra |].
    intros Ht. exfalso. apply Hn. rewrite Hb.
    destruct (Rlt_dec t 15).
    + left. unfold in_block; simpl. lra.
    + right. left. unfold in_block; simpl. lra.
Qed.

(** A tick in the middle of a session: the effects it performs. *)

Lemma updateAudioParameters_running e now p :
  currentProfile e = Some p -> isPlaying e = true ->
  audioContext e = true -> oscillator e = true ->
  now - sessionStartTime e < sessionDuration e ->
  let pr := Rmin 1 ((now - sessionStartTime e) / sessionDuration e) in
  let a := proModeAdjustments e in
  updateAudioParameters e now =
  (set_animationFrameId true e,
   [SetTargetAtTime OscillatorFrequency
      (mapToFrequency (interpolateCurve (curve p) pr + frequencyOffset a))
      now 0.1]
   ++ applyTexture e now (interpolateCurve (densityMap p) pr + textureOffset a)
   ++ applyModulation e now pr
   ++ applySilenceBlocks e now pr
   ++ applySubtlePanning e now pr).
Proof.
  intros Hp Hplay Hctx Hosc Hlt pr a.
  unfold updateAudioParameters, getProgress.
  rewrite Hp, Hplay, Hctx, Hosc. simpl.
  replace (Rleb (Rmax 0 (sessionDuration e - (now - sessionStartTime e))) 0)
    with false; [reflexivity |].
  symmetry. apply Rleb_false. unfold Rmax.
  destruct (Rle_dec _ _); lra.
Qed.

(** The two frequency targets of such a tick when the profile has an
    LFO: the adapted base pitch, then the pitch that [applyModulation]
    computes. *)

Lemma tick_frequency_targets e now p :
  currentProfile e = Some p -> isPlaying e = true ->
  audioContext e = true -> oscillator e = true ->
  now - sessionStartTime e < sessionDuration e ->
  0 < lfoFreq (modulation_lookup (modulation_type p)) ->
  let pr := progress (getProgress e now) in
  let a := proModeAdjustments e in
  targets_of OscillatorFrequency (snd (updateAudioParameters e now)) =
  [ mapToFrequency (interpolateCurve (curve p) pr + frequencyOffset a);
    mapToFrequency (interpolateCurve (curve p) pr)
    + modulation_deviation p a now ].
Proof.
  intros Hp Hplay Hctx Hosc Hlt Hlfo.
  rewrite (updateAudioParameters_running e now p) by assumption.
  unfold getProgress. rewrite Hplay, Hctx. simpl.
  unfold applyTexture, applyModulation, applySilenceBlocks,
    applySubtlePanning, filter, silenceGate, panner.
  rewrite Hp, Hctx, Hosc. simpl.
  replace (Rgtb (lfoFreq (modulation_lookup (modulation_type p))) 0)
    with true by (symmetry; now apply Rgtb_true).
  simpl. unfold modulation_deviation.
  do 3 f_equal. f_equal. f_equal. f_equal. f_equal. ring.
Qed.

(** The silence-gate target of such a tick is the one computed by
    [applySilenceBlocks]. *)

Lemma tick_silence_targets e now p :
  currentProfile e = Some p -> isPlaying e = true ->
  audioContext e = true -> oscillator e = true ->
  now - sessionStartTime e < sessionDuration e ->
  targets_of SilenceGateGain (snd (updateAudioParameters e now)) =
  targets_of SilenceGateGain
    (applySilenceBlocks e now (progress (getProgress e now))).
Proof.
  intros Hp Hplay Hctx Hosc Hlt.
  rewrite (updateAudioParameters_running e now p) by assumption.
  unfold getProgress. rewrite Hplay, Hctx. simpl.
  unfold applyTexture, applyModulation, applySilenceBlocks,
    applySubtlePanning, filter, silenceGate, panner.
  rewrite Hp, Hctx, Hosc. simpl.
  destruct (Rgtb _ 0); reflexivity.
Qed.

(** With a zero frequency offset the modulated pitch is the one of the
    two formulas of the scheduler. *)

Lemma tick_frequency_unadapted e now p :
  currentProfile e = Some p -> isPlaying e = true ->
  audioContext e = true -> oscillator e = true ->
  now - sessionStartTime e < sessionDuration e ->
  0 < lfoFreq (modulation_lookup (modulation_type p)) ->
  frequencyOffset (proModeAdjustments e) = 0 ->
  let pr := progress (getProgress e now) in
  let a := proModeAdjustments e in
  last_target OscillatorFrequency (snd (updateAudioParameters e now)) =
  Some (mapToFrequency (interpolateCurve (curve p) pr + frequencyOffset a)
        + modulation_deviation p a now).
Proof.
  intros Hp Hplay Hctx Hosc Hlt Hlfo Hzero pr a. unfold last_target.
  rewrite (tick_frequency_targets e now p) by assumption.
  simpl. fold pr a. unfold a. rewrite Hzero, Rplus_0_r. reflexivity.
Qed.

End Scheduler.

(* ================================================================= *)
(** ** A Pro Mode session on the README profile *)

Section Session.

Lemma playing_session_state :
  fst (run playing_session initial_engine) =
  {| audioContext := true;
     oscillator := true;
     isPlaying := true;
     currentProfile := Some readme_profile;
     sessionStartTime := 0;
     sessionDuration := 1500;
     animationFrameId := true;
     proModeEnabled := true;
     interactionCount := 0;
     proModeAdjustments := mkAdjustments 0 0 0 |}.
Proof.
  unfold playing_session, run, step.
  unfold loadProfile, setProMode; simpl.
  unfold play, init, startOscillator; simpl.
  rewrite (updateAudioParameters_running _ 0 readme_profile);
    simpl; try reflexivity; lra.
Qed.

Lemma first_interaction_rate : js_gt (js_div (INR 1) ((1 - 0) / 60)) 2.
Proof.
  rewrite js_div_finite by lra. simpl. lra.
Qed.

Lemma adapted_session_state :
  fst (run adapted_session initial_engine) =
  {| audioContext := true;
     oscillator := true;
     isPlaying := true;
     currentProfile := Some readme_profile;
     sessionStartTime := 0;
     sessionDuration := 1500;
     animationFrameId := true;
     proModeEnabled := true;
     interactionCount := 1;
     proModeAdjustments := mkAdjustments (-0.01) (-0.01) 0 |}.
Proof.
  unfold adapted_session. rewrite run_app.
  pose proof playing_session_state as H.
  destruct (run playing_session initial_engine) as [e1 fx1].
  simpl in H. subst e1. simpl.
  unfold recordInteraction, getProgress; simpl.
  pose proof first_interaction_rate as Hrate.
  apply js_gtb_true in Hrate. simpl in Hrate. rewrite Hrate.
  unfold set_proModeAdjustments; simpl.
  assert (Hm : Rmax (-0.1) (0 - 0.01) = -0.01)
    by (unfold Rmax; destruct (Rle_dec _ _); lra).
  rewrite Hm. reflexivity.
Qed.

(** An interaction in the very instant the session starts: no time has
    elapsed, the rate is infinite, and the offsets are lowered. *)

Lemma interaction_at_session_start :
  proModeAdjustments
    (recordInteraction (fst (run playing_session initial_engine)) 0)
  = mkAdjustments (-0.01) (-0.01) 0.
Proof.
  rewrite playing_session_state.
  unfold recordInteraction, getProgress; simpl.
  replace ((0 - 0) / 60) with 0 by lra.
  rewrite js_div_zero by lra. simpl.
  assert (Hm : Rmax (-0.1) (0 - 0.01) = -0.01)
    by (unfold Rmax; destruct (Rle_dec _ _); lra).
  now rewrite Hm.
Qed.

Lemma adapted_session_reachable :
  reachable (fst (run adapted_session initial_engine)).
Proof. apply reachable_run. constructor. Qed.

(** The frame at 2000 s, after the 1500 s of the profile, completes the
    session. *)

Lemma adapted_session_completes :
  In (SessionComplete adapted_completion)
    (snd (step (OpFrame 2000) (fst (run adapted_session initial_engine)))).
Proof.
  rewrite adapted_session_state. simpl.
  unfold updateAudioParameters, getProgress; simpl.
  replace (Rleb (Rmax 0 (1500 - (2000 - 0))) 0) with true
    by (symmetry; apply Rleb_true; unfold Rmax;
        destruct (Rle_dec _ _); lra).
  unfold onSessionComplete; simpl. left.
  cmp_false (Reqb (-0.01) 0). reflexivity.
Qed.

(** C1.  In the session on the README profile (gentle modulation, LFO
    at 0.1 Hz), after one interaction has lowered the frequency offset
    to -0.01, the frame at 2.5 s leaves the oscillator with the target
    [mapToFrequency base + deviation], where [base] is the interpolated
    curve value without the offset; this differs from
    [mapToFrequency (base + frequencyOffset) + deviation]. *)

Theorem modulated_tick_drops_frequency_offset :
  let e := fst (run adapted_session initial_engine) in
  let a := proModeAdjustments e in
  let pr := progress (getProgress e 2.5) in
  let base := interpolateCurve (curve readme_profile) pr in
  let deviation := modulation_deviation readme_profile a 2.5 in
  let pushed :=
    last_target OscillatorFrequency (snd (step (OpFrame 2.5) e)) in
  frequencyOffset a = -0.01 /\
  deviation = 0.12 /\
  pushed = Some (mapToFrequency base + deviation) /\
  pushed <> Some (mapToFrequency (base + frequencyOffset a) + deviation).
Proof.
  rewrite adapted_session_state.
  set (e := mkEngine _ _ _ _ _ _ _ _ _ _).
  assert (Hpushed :
    last_target OscillatorFrequency (snd (step (OpFrame 2.5) e)) =
    Some (mapToFrequency
            (interpolateCurve (curve readme_profile)
               (progress (getProgress e 2.5)))
          + modulation_deviation readme_profile (proModeAdjustments e) 2.5)).
  { unfold last_target. simpl step.
    rewrite (tick_frequency_targets e 2.5 readme_profile);
      try reflexivity; simpl; lra. }
  cbv zeta. rewrite Hpushed.
  split; [reflexivity |]. split.
  - unfold modulation_deviation; simpl.
    replace (2 * PI * 0.1 * 2.5) with (PI / 2) by lra.
    rewrite sin_PI2. lra.
  - split; [reflexivity |].
    intros [= H]. apply Rplus_eq_reg_r in H. simpl in H.
    pose proof (mapToFrequency_lt (0.4 + -0.01) 0.4) as Hlt. lra.
Qed.

End Session.

(* ================================================================= *)
(** ** Instances *)

Section Instances.


(** The interpolator on the unsorted curve at progress 0.25: no pair
    brackets it in scan order before the third, the points at times 0
    and 1. *)

Lemma unsorted_curve_sample :
  interpolateCurve (Some unsorted_curve) 0.25
  = 0.4 + (0.6 - 0.4) * ((0.25 - 0) / (1 - 0)).
Proof.
  unfold interpolateCurve, unsorted_curve, find_bracket; simpl.
  cmp_false (Rleb 0.5 0.25). simpl.
  cmp_true (Rleb 0 0.25). cmp_true (Rgeb 1 0.25). simpl.
  cmp_false (Reqb (1 - 0) 0). reflexivity.
Qed.


Lemma mapToFrequency_exponential_witness :
  mapToFrequency 0.25 < mapToFrequency 0.75.
Proof.
  destruct mapToFrequency_exponential as (_ & _ & _ & _ & _ & Hmono).
  apply Hmono; lra.
Defined.

Lemma wasAdapted_iff_offset_nonzero_witness :
  wasAdapted adapted_completion = true <->
  any_offset_nonzero
    (proModeAdjustments (fst (run adapted_session initial_engine))).
Proof.
  apply (wasAdapted_iff_offset_nonzero
           (fst (run adapted_session initial_engine)) (OpFrame 2000)).
  - exact adapted_session_reachable.
  - exact adapted_session_completes.
Defined.

Lemma offsets_one_sided_witness :
  let a := proModeAdjustments (fst (run adapted_session initial_engine)) in
  -0.1 <= frequencyOffset a <= 0 /\
  -0.1 <= textureOffset a <= 0 /\
  0 <= modulationOffset a <= 0.1 /\
  (proModeEnabled (fst (run adapted_session initial_engine)) = false ->
     frequencyOffset a = 0 /\ textureOffset a = 0 /\ modulationOffset a = 0).
Proof.
  apply (offsets_one_sided (fst (run adapted_session initial_engine))).
  exact adapted_session_reachable.
Defined.

Lemma recordInteraction_cases_witness :
  let e := fst (run playing_session initial_engine) in
  interactionCount (recordInteraction e 1) = 1%nat /\
  proModeAdjustments (recordInteraction e 1) =
  mkAdjustments (Rmax (-0.1) (0 - 0.01)) (Rmax (-0.1) (0 - 0.01)) 0.
Proof.
  intros e.
  assert (Hreach : reachable e) by (apply reachable_run; constructor).
  destruct (recordInteraction_cases e 1 Hreach) as [_ Hactive].
  assert (He : e = mkEngine true true true (Some readme_profile) 0 1500
                     true true 0 (mkAdjustments 0 0 0))
    by exact playing_session_state.
  rewrite He in Hactive |- *.
  destruct (Hactive eq_refl eq_refl) as (Hcount & Hhigh & _).
  split; [exact Hcount |].
  apply Hhigh. exact first_interaction_rate.
Defined.

Lemma silence_gate_any_block_witness :
  let e := mkEngine true true true (Some readme_profile) 0 1500
             true false 0 (mkAdjustments 0 0 0) in
  applySilenceBlocks e 420 0.28
  = [SetTargetAtTime SilenceGateGain 0 420 0.05].
Proof.
  intros e.
  destruct (silence_gate_any_block e 420 0.28 readme_profile eq_refl eq_refl)
    as (g & Hfx & Hin & _).
  rewrite Hfx. rewrite Hin; [reflexivity |].
  left. unfold in_block; simpl. lra.
Defined.

End Instances.


(* ================================================================= *)
(** * Further properties of the engine *)

(** ** Ranges of the values sent to the audio graph *)

Section Ranges.

Lemma clamp_unit (v : R) : 0 <= Rmax 0 (Rmin 1 v) <= 1.
Proof. unfold Rmax, Rmin. repeat destruct (Rle_dec _ _); lra. Qed.

Lemma clamp_monotone (u v : R) :
  u <= v -> Rmax 0 (Rmin 1 u) <= Rmax 0 (Rmin 1 v).
Proof. intros H. unfold Rmax, Rmin. repeat destruct (Rle_dec _ _); lra. Qed.

Lemma mapToFrequency_bounds (v : R) : 80 <= mapToFrequency v <= 400.
Proof.
  assert (Hbase : 1 <= FREQ_MAX / FREQ_MIN)
    by (unfold FREQ_MAX, FREQ_MIN; lra).
  assert (Hpos : 0 < FREQ_MAX / FREQ_MIN) by lra.
  unfold mapToFrequency.
  destruct (clamp_unit v) as [H0 H1].
  pose proof (Rle_Rpower _ _ _ Hbase H0) as Hlo.
  pose proof (Rle_Rpower _ _ _ Hbase H1) as Hhi.
  rewrite Rpower_O in Hlo by exact Hpos.
  rewrite Rpower_1 in Hhi by exact Hpos.
  unfold FREQ_MAX, FREQ_MIN in *. split; nra.
Qed.

(** X1.  Whatever number it is given, the frequency mapper answers with
    a frequency between 80 Hz and 400 Hz, and it never decreases when
    its argument grows. *)

Theorem mapToFrequency_range (u v : R) :
  80 <= mapToFrequency v <= 400 /\
  (u <= v -> mapToFrequency u <= mapToFrequency v).
Proof.
  assert (Hbase : 1 <= FREQ_MAX / FREQ_MIN)
    by (unfold FREQ_MAX, FREQ_MIN; lra).
  assert (Hpos : 0 < FREQ_MAX / FREQ_MIN) by lra.
  split; [apply mapToFrequency_bounds |].
  unfold mapToFrequency.
  intros Huv. apply Rmult_le_compat_l; [unfold FREQ_MIN; lra |].
    apply Rle_Rpower; [exact Hbase | now apply clamp_monotone].
Qed.

(** X2.  With the audio graph in place, [applyTexture] writes exactly
    three targets, in the order cutoff, resonance, density gain, with a
    cutoff in [200, 2000] Hz, a Q in [0.5, 8] and a density gain in
    [0.7, 1], whatever the texture value; a value inside [0,1] is used
    as it is. *)

Theorem applyTexture_ranges e now v :
  audioContext e = true ->
  exists fc q d,
    applyTexture e now v =
    [ SetTargetAtTime FilterFrequency fc now 0.1;
      SetTargetAtTime FilterQ q now 0.1;
      SetTargetAtTime DensityGain d now 0.1 ] /\
    200 <= fc <= 2000 /\ 0.5 <= q <= 8 /\ 0.7 <= d <= 1 /\
    (0 <= v <= 1 ->
       fc = 2000 - v * 1800 /\ q = 0.5 + v * 7.5 /\ d = 0.7 + v * 0.3).
Proof.
  intros Hctx. unfold applyTexture, filter. rewrite Hctx. simpl.
  do 3 eexists. split; [reflexivity |].
  destruct (clamp_unit v) as [H0 H1].
  unfold FILTER_FREQ_MAX, FILTER_FREQ_MIN, FILTER_Q_MAX, FILTER_Q_MIN.
  repeat split; try nra.
  all: match goal with Hv : 0 <= ?x <= 1 |- _ =>
         rewrite (clamp_inside x Hv); lra end.
Qed.

(** X3.  A rougher texture never raises the cutoff and never lowers the
    resonance or the density gain. *)

Theorem applyTexture_inverse_cutoff e now u v :
  audioContext e = true -> u <= v ->
  exists fu qu du fv qv dv,
    targets_of FilterFrequency (applyTexture e now u) = [fu] /\
    targets_of FilterQ (applyTexture e now u) = [qu] /\
    targets_of DensityGain (applyTexture e now u) = [du] /\
    targets_of FilterFrequency (applyTexture e now v) = [fv] /\
    targets_of FilterQ (applyTexture e now v) = [qv] /\
    targets_of DensityGain (applyTexture e now v) = [dv] /\
    fv <= fu /\ qu <= qv /\ du <= dv.
Proof.
  intros Hctx Huv. unfold applyTexture, filter. rewrite Hctx. simpl.
  do 6 eexists. repeat (split; [reflexivity |]).
  pose proof (clamp_monotone u v Huv) as Hc.
  unfold FILTER_FREQ_MAX, FILTER_FREQ_MIN, FILTER_Q_MAX, FILTER_Q_MIN.
  repeat split; nra.
Qed.

(** X4.  [setMasterVolume] does nothing before the audio graph exists;
    once it exists it writes one master-gain target, between 0 and 1,
    equal to the requested volume when that is between 0 and 1. *)

Theorem setMasterVolume_clamped e now volume :
  (audioContext e = false -> setMasterVolume e now volume = []) /\
  (audioContext e = true ->
     exists g,
       setMasterVolume e now volume = [SetTargetAtTime MasterGain g now 0.1] /\
       0 <= g <= 1 /\ (0 <= volume <= 1 -> g = volume)).
Proof.
  unfold setMasterVolume, masterGain. split; intros ->; simpl; [reflexivity |].
  eexists. split; [reflexivity |].
  split; [apply clamp_unit | apply clamp_inside].
Qed.

(** X5.  The pan target of [applySubtlePanning] stays within 0.1 of the
    centre, and is written only when the audio graph exists. *)

Theorem applySubtlePanning_range e now progress :
  (audioContext e = false -> applySubtlePanning e now progress = []) /\
  (audioContext e = true ->
     exists pan,
       applySubtlePanning e now progress
       = [SetTargetAtTime PannerPan pan now 0.1] /\
       -0.1 <= pan <= 0.1).
Proof.
  unfold applySubtlePanning, panner. split; intros ->; simpl; [reflexivity |].
  eexists. split; [reflexivity |].
  pose proof (SIN_bound (now * 0.05)). lra.
Qed.

(** X6.  [getProgress] of an engine that is not playing reports nothing
    elapsed and the whole duration remaining.  While a session plays,
    with a positive duration and a clock that has not gone back behind
    the start, the progress is in [0,1] and the remaining time is
    between 0 and the duration; until the duration is reached the
    remaining time is the duration less the elapsed time and the
    progress is the elapsed time divided by the duration, and from then
    on they are 0 and 1. *)

Theorem getProgress_bounds e now :
  (isPlaying e = false ->
     getProgress e now = mkProgress 0 (sessionDuration e) 0) /\
  (isPlaying e = true -> audioContext e = true ->
   0 < sessionDuration e -> sessionStartTime e <= now ->
     let info := getProgress e now in
     elapsed info = now - sessionStartTime e /\
     0 <= progress info <= 1 /\
     0 <= remaining info <= sessionDuration e /\
     (elapsed info <= sessionDuration e ->
        remaining info = sessionDuration e - elapsed info /\
        progress info = elapsed info / sessionDuration e) /\
     (sessionDuration e <= elapsed info ->
        remaining info = 0 /\ progress info = 1)).
Proof.
  unfold getProgress. split.
  - intros ->. reflexivity.
  - intros -> -> Hd Hs. simpl.
    set (el := now - sessionStartTime e).
    set (d := sessionDuration e) in *.
    assert (Hel : 0 <= el) by (unfold el; lra).
    assert (Hinv : 0 < / d) by (apply Rinv_0_lt_compat; lra).
    assert (Hq : 0 <= el / d) by (unfold Rdiv; nra).
    assert (Hmul : el / d * d = el) by (field; lra).
    split; [reflexivity |].
    unfold Rmin, Rmax. repeat destruct (Rle_dec _ _); repeat split; try lra.
    all: try nra.
Qed.

End Ranges.

(* ================================================================= *)
(** ** The interpolator on well-formed curves and outside the span *)

Section Curves.

Implicit Types (c : list point) (p : R) (a b q : point).

Lemma interpolateCurve_found c p lower upper :
  (2 <= List.length c)%nat ->
  find_bracket c p = Some (lower, upper) -> time lower <> time upper ->
  interpolateCurve (Some c) p = chord lower upper p.
Proof.
  intros Hlen Hfind Hne.
  destruct c as [|x [|y r]]; simpl in Hlen;
    [ exfalso; inversion Hlen
    | exfalso; inversion Hlen as [|? H]; inversion H |].
  unfold interpolateCurve. rewrite Hfind.
  cmp_false (Reqb (time upper - time lower) 0). reflexivity.
Qed.

Lemma increasing_tail a c : increasing (a :: c) -> increasing c.
Proof. destruct c as [|b c]; simpl; tauto. Qed.

Lemma increasing_head_lt l a b r :
  increasing (b :: l ++ a :: r) -> time b < time a.
Proof.
  revert b. induction l as [|x l IH]; intros b H.
  - simpl in H. tauto.
  - change (increasing (b :: x :: l ++ a :: r)) in H.
    destruct H as [Hbx Hrest]. specialize (IH x Hrest). lra.
Qed.

(** On a strictly increasing curve the scan stops at the first pair
    whose later time reaches the progress: for a progress after the time
    of [a] and up to the time of its successor [b], and for a progress
    from the time of the first point up to the time of the second, at
    that pair. *)

Lemma increasing_bracket l1 a b l2 p :
  increasing (l1 ++ a :: b :: l2) -> time a <= p <= time b ->
  (l1 <> [] -> time a < p) ->
  find_bracket (l1 ++ a :: b :: l2) p = Some (a, b).
Proof.
  induction l1 as [|x l1 IH]; intros Hinc Hp Hstrict.
  - simpl. cmp_true (Rleb (time a) p). cmp_true (Rgeb (time b) p).
    reflexivity.
  - assert (Hap : time a < p) by (apply Hstrict; discriminate).
    specialize (IH (increasing_tail _ _ Hinc) Hp (fun _ => Hap)).
    pose proof (increasing_head_lt l1 a x (b :: l2) Hinc) as Hxa.
    destruct l1 as [|y l1].
    + change (find_bracket ([x] ++ a :: b :: l2) p) with
        (if Rleb (time x) p && Rgeb (time a) p then Some (x, a)
         else find_bracket ([] ++ a :: b :: l2) p).
      cmp_false (Rgeb (time a) p). rewrite andb_false_r. exact IH.
    + change (increasing (x :: y :: l1 ++ a :: b :: l2)) in Hinc.
      destruct Hinc as [Hxy Hrest].
      pose proof (increasing_head_lt l1 a y (b :: l2) Hrest) as Hya.
      change (find_bracket ((x :: y :: l1) ++ a :: b :: l2) p) with
        (if Rleb (time x) p && Rgeb (time y) p then Some (x, y)
         else find_bracket ((y :: l1) ++ a :: b :: l2) p).
      cmp_false (Rgeb (time y) p). rewrite andb_false_r. exact IH.
Qed.

Lemma increasing_pair l1 a b l2 :
  increasing (l1 ++ a :: b :: l2) -> time a < time b.
Proof.
  induction l1 as [|y l1 IH]; intros Hinc.
  - simpl in Hinc. tauto.
  - apply IH. exact (increasing_tail _ _ Hinc).
Qed.

Lemma interpolateCurve_neighbours l1 a b l2 p :
  increasing (l1 ++ a :: b :: l2) -> time a <= p <= time b ->
  (l1 <> [] -> time a < p) ->
  interpolateCurve (Some (l1 ++ a :: b :: l2)) p = chord a b p.
Proof.
  intros Hinc Hp Hstrict.
  pose proof (increasing_pair l1 a b l2 Hinc) as Hlt.
  apply interpolateCurve_found;
    [| now apply increasing_bracket | lra].
  rewrite length_app. simpl. lia.
Qed.

(** A number divided by itself, and the blend at the two ends of its
    parameter. *)

Lemma chord_at_upper a b : time a < time b ->
  chord a b (time b) = value a + (value b - value a).
Proof.
  intros Hlt. unfold chord.
  replace ((time b - time a) / (time b - time a)) with 1 by (field; lra).
  now rewrite Rmult_1_r.
Qed.

Lemma chord_at_lower a b : chord a b (time a) = value a.
Proof.
  unfold chord, Rdiv. rewrite Rminus_diag, Rmult_0_l, Rmult_0_r.
  apply Rplus_0_r.
Qed.

(** X7.  On a curve whose times increase strictly, the interpolator is
    the piecewise-linear function through the points: at a progress
    after the time of a point [a] and up to the time of its successor
    [b], and from the time of the first point up to the time of the
    second, it is the chord of the two,
    [a.value + (b.value - a.value) * ((progress - a.time) / (b.time - a.time))]. *)

Theorem interpolateCurve_piecewise_linear l1 a b l2 p :
  increasing (l1 ++ a :: b :: l2) -> time a <= p <= time b ->
  (l1 <> [] -> time a < p) ->
  interpolateCurve (Some (l1 ++ a :: b :: l2)) p
  = value a + (value b - value a) * ((p - time a) / (time b - time a)).
Proof. exact (interpolateCurve_neighbours l1 a b l2 p). Qed.

Lemma interpolateCurve_at_first a r :
  increasing (a :: r) -> interpolateCurve (Some (a :: r)) (time a) = value a.
Proof.
  intros Hinc. destruct r as [|b r]; [reflexivity |].
  pose proof (increasing_pair [] a b r Hinc) as Hlt.
  assert (Hin : time a <= time a <= time b) by lra.
  pose proof (interpolateCurve_neighbours [] a b r (time a) Hinc Hin) as H.
  cbn [app] in H. rewrite H; [apply chord_at_lower | easy].
Qed.

Lemma interpolateCurve_at_later l1 a q l2 :
  increasing (l1 ++ a :: q :: l2) ->
  interpolateCurve (Some (l1 ++ a :: q :: l2)) (time q)
  = value a + (value q - value a).
Proof.
  intros Hinc.
  pose proof (increasing_pair l1 a q l2 Hinc) as Hlt.
  rewrite (interpolateCurve_neighbours l1 a q l2 (time q));
    [now apply chord_at_upper | exact Hinc | lra | intros _; exact Hlt].
Qed.

(** X8.  On a curve whose times increase strictly, the interpolator
    returns at the time of the first point the value of that point, and
    at the time of every later point [q], with [a] the point before it,
    the sum [a.value + (q.value - a.value)]: the blend of the two with
    the parameter 1, which is the value of [q] up to the rounding of
    that sum. *)

Theorem interpolateCurve_through_points c :
  increasing c ->
  (forall a r, c = a :: r -> interpolateCurve (Some c) (time a) = value a) /\
  (forall l1 a q l2, c = l1 ++ a :: q :: l2 ->
     interpolateCurve (Some c) (time q) = value a + (value q - value a)).
Proof.
  intros Hinc. split.
  - intros a r ->. now apply interpolateCurve_at_first.
  - intros l1 a q l2 ->. now apply interpolateCurve_at_later.
Qed.

(** When no pair brackets the progress, the first and the last point
    are used. *)

Lemma interpolateCurve_fallback first second rest p :
  find_bracket (first :: second :: rest) p = None ->
  let final := last (second :: rest) first in
  interpolateCurve (Some (first :: second :: rest)) p =
  if Reqb (time final - time first) 0 then value first
  else chord first final p.
Proof. intros Hnone. unfold interpolateCurve. rewrite Hnone. reflexivity. Qed.

(** X9.  A progress that lies before the times of all points, or after
    all of them, is not clamped to the curve: the interpolator answers
    with the chord through the first and the last point of the curve,
    continued to that progress (with the value of the first point when
    the two have the same time). *)

Theorem interpolateCurve_outside_span first second rest p :
  (forall q, In q (first :: second :: rest) -> time q < p) \/
  (forall q, In q (first :: second :: rest) -> p < time q) ->
  let final := last (second :: rest) first in
  (time final = time first ->
     interpolateCurve (Some (first :: second :: rest)) p = value first) /\
  (time final <> time first ->
     interpolateCurve (Some (first :: second :: rest)) p
     = value first
       + (value final - value first)
         * ((p - time first) / (time final - time first))).
Proof.
  intros Hout final.
  assert (Hnone : find_bracket (first :: second :: rest) p = None).
  { destruct (find_bracket (first :: second :: rest) p) as [[lo up]|] eqn:E;
      [exfalso | reflexivity].
    apply find_bracket_Some in E as (Hlo & Hup & Ht).
    destruct Hout as [H | H];
      [specialize (H up Hup) | specialize (H lo Hlo)]; lra. }
  rewrite (interpolateCurve_fallback first second rest p Hnone). fold final.
  split; intros H.
  - cmp_true (Reqb (time final - time first) 0). reflexivity.
  - cmp_false (Reqb (time final - time first) 0). reflexivity.
Qed.

End Curves.

(* ================================================================= *)
(** ** Session lifecycle, continued *)

Section LifecycleMore.

Ltac case_ifs :=
  repeat match goal with
    | |- context [if ?b then _ else _] => destruct b eqn:?
    | |- context [match ?x with _ => _ end] => destruct x eqn:?
    end.

(** X10.  In every reachable state a playing session has an audio
    context, an oscillator and a loaded profile. *)

Theorem playing_session_has_resources e :
  reachable e -> isPlaying e = true ->
  audioContext e = true /\ oscillator e = true /\ currentProfile e <> None.
Proof.
  intros H Hplay. destruct (reachable_session e H) as (H1 & _ & _).
  exact (H1 Hplay).
Qed.

(** X11.  Only [loadProfile], [setProMode] and [recordInteraction] ever
    change the Pro Mode variables (the flag, the interaction count, the
    three offsets): every other operation, and both callbacks, leave
    them as they are.  In particular they survive pause and resume. *)

Theorem adaptive_state_changed_only_by o e :
  match o with
  | OpLoadProfile _ | OpSetProMode _ | OpRecordInteraction _ => True
  | _ => adaptive_state (fst (step o e)) = adaptive_state e
  end.
Proof.
  destruct o as [g | p | t g | | | t volume | enabled | t | layer v t g | | t |];
    simpl; try exact I.
  - rewrite <- (init_adaptive e g). now destruct (init e g) as [[e1 fx] b].
  - apply play_adaptive.
  - apply pause_adaptive.
  - apply stop_adaptive.
  - reflexivity.
  - apply previewLayer_adaptive.
  - apply dispose_adaptive.
  - destruct (animationFrameId e); [| reflexivity].
    apply updateAudioParameters_adaptive.
  - apply previewTimeout_adaptive.
Qed.

(** After [pause], and so after [stop] and [dispose], the engine is
    not playing, whatever its state was. *)

Lemma pause_not_playing e : isPlaying (pause e) = false.
Proof.
  unfold pause. destruct (isPlaying e) eqn:E; simpl; [| exact E].
  destruct (oscillator e); simpl; destruct (animationFrameId e); reflexivity.
Qed.

Lemma dispose_not_playing e : isPlaying (dispose e) = false.
Proof.
  unfold dispose, stop.
  destruct (audioContext _); simpl; apply pause_not_playing.
Qed.

(** A frame callback that finds the engine not playing returns at its
    guard. *)

Lemma updateAudioParameters_idle e now :
  isPlaying e = false -> updateAudioParameters e now = (e, []).
Proof.
  intros H. unfold updateAudioParameters. rewrite H.
  now destruct (currentProfile e).
Qed.

(** X12.  After [pause], [stop] or [dispose], from any state of the
    engine, a frame callback that still fires (one that was requested
    before and not cancelled) returns at its guard: it changes nothing,
    writes nothing to the audio graph, emits no event and requests no
    further frame. *)

Theorem no_frame_after_teardown e now :
  updateAudioParameters (pause e) now = (pause e, []) /\
  updateAudioParameters (stop e) now = (stop e, []) /\
  updateAudioParameters (dispose e) now = (dispose e, []).
Proof.
  repeat split; apply updateAudioParameters_idle.
  - apply pause_not_playing.
  - apply pause_not_playing.
  - apply dispose_not_playing.
Qed.

(** A pending frame callback means a playing session with its
    resources. *)

Lemma playing_frame_resources e :
  reachable e -> animationFrameId e = true ->
  isPlaying e = true /\ audioContext e = true /\
  exists p, currentProfile e = Some p.
Proof.
  intros H Hf. destruct (reachable_session e H) as (H1 & H2 & _).
  specialize (H2 Hf). destruct (H1 H2) as (Hc & _ & Hp).
  repeat split; try assumption.
  destruct (currentProfile e) as [p|]; [now exists p | easy].
Qed.

Lemma pause_profile e :
  sessionDuration (pause e) = sessionDuration e /\
  currentProfile (pause e) = currentProfile e.
Proof.
  unfold pause.
  destruct (isPlaying e); simpl; [| now split].
  destruct (oscillator e); simpl; destruct (animationFrameId e); now split.
Qed.

Lemma no_frame_left e :
  reachable e -> animationFrameId (stop e) = false /\ isPlaying (stop e) = false.
Proof.
  intros H. destruct (reachable_session e H) as (_ & Hf & _).
  destruct e as [ctx osc playing prof t0 dur frame pro n adj].
  unfold stop, pause. simpl in *.
  destruct playing, osc, frame; simpl; split; try reflexivity.
  all: specialize (Hf eq_refl); discriminate.
Qed.

Ltac case_ifs_in H :=
  repeat match type of H with
    | context [if ?b then _ else _] => destruct b
    | context [match ?x with _ => _ end] => destruct x
    end.

(** What a completion signal of a tick carries. *)

Lemma tick_completion_detail e now d :
  In (SessionComplete d) (snd (updateAudioParameters e now)) ->
  exists p,
    currentProfile e = Some p /\
    profileId d = id p /\ profileName d = Some (name p) /\
    completed_duration d = sessionDuration e /\
    completed_proModeEnabled d = proModeEnabled e /\
    (proModeEnabled e = false -> wasAdapted d = false).
Proof.
  destruct e as [ctx osc playing prof t0 dur frame pro n adj].
  unfold updateAudioParameters. simpl.
  destruct prof as [p|]; [| intros []].
  destruct playing; simpl; [| intros []].
  destruct (Rleb _ 0).
  - unfold onSessionComplete, stop, pause. simpl.
    intros [[= <-] | []]. exists p.
    destruct osc, frame; simpl; repeat split; intros ->; reflexivity.
  - simpl. unfold applyTexture, applyModulation, applySilenceBlocks,
      applySubtlePanning. simpl. intros H. exfalso.
    repeat (apply in_app_or in H as [H | H]).
    all: case_ifs_in H; simpl in H; intuition discriminate.
Qed.

(** X13.  The frame that finds the duration reached ends the session:
    the engine stops, the only effect of that frame is one
    [sessionComplete] event carrying the session duration, and
    afterwards neither a frame nor a recorded interaction does
    anything, so that the event is not repeated. *)

Theorem session_completes_once e now :
  reachable e -> animationFrameId e = true ->
  sessionDuration e <= now - sessionStartTime e ->
  exists d,
    step (OpFrame now) e = (stop e, [SessionComplete d]) /\
    completed_duration d = sessionDuration e /\
    isPlaying (stop e) = false /\
    (forall later, step (OpFrame later) (stop e) = (stop e, [])) /\
    (forall later, recordInteraction (stop e) later = stop e).
Proof.
  intros Hreach Hframe Hdone.
  destruct (playing_frame_resources e Hreach Hframe) as (Hplay & Hctx & p & Hp).
  destruct (no_frame_left e Hreach) as [Hstop Hoff].
  assert (Hlater : forall later, step (OpFrame later) (stop e) = (stop e, []))
    by (intros later; unfold step; now rewrite Hstop).
  assert (Hrec : forall later, recordInteraction (stop e) later = stop e)
    by (intros later; unfold recordInteraction; rewrite Hoff;
        now rewrite orb_true_r).
  unfold step at 1. rewrite Hframe.
  unfold updateAudioParameters, getProgress. rewrite Hp, Hplay, Hctx. simpl.
  replace (Rleb (Rmax 0 (sessionDuration e - (now - sessionStartTime e))) 0)
    with true
    by (symmetry; apply Rleb_true; unfold Rmax; destruct (Rle_dec _ _); lra).
  unfold onSessionComplete. simpl. eexists. split; [reflexivity |].
  simpl. split; [apply pause_profile |]. split; [exact Hoff |].
  split; [exact Hlater | exact Hrec].
Qed.

(** X14.  Whichever operation emits it, a completion signal carries
    the id and the name of the loaded profile, the session duration and
    the Pro Mode flag of that moment; with Pro Mode disabled its
    [wasAdapted] flag is false. *)

Theorem completion_payload e o d :
  In (SessionComplete d) (snd (step o e)) ->
  exists p,
    currentProfile e = Some p /\
    profileId d = id p /\ profileName d = Some (name p) /\
    completed_duration d = sessionDuration e /\
    completed_proModeEnabled d = proModeEnabled e /\
    (proModeEnabled e = false -> wasAdapted d = false).
Proof.
  intros Hin.
  destruct o as [g | p | t g | | | t volume | enabled | t | layer v t g | | t |];
    simpl in Hin.
  - exfalso. unfold init in Hin.
    destruct (audioContext e); [| destruct g]; simpl in Hin;
      intuition discriminate.
  - destruct Hin.
  - unfold play in Hin.
    destruct (isPlaying e); [destruct Hin |].
    destruct (currentProfile e) as [p|] eqn:Ep; [| destruct Hin].
    unfold init in Hin.
    destruct (audioContext e); [| destruct g]; simpl in Hin.
    4: destruct Hin.
    3: { exfalso. intuition discriminate. }
    all: match type of Hin with
         | context [updateAudioParameters ?x ?y] =>
             pose proof (tick_completion_detail x y d) as Ht;
             destruct (updateAudioParameters x y) as [e5 fx5]
         end; simpl in *.
    + destruct Hin as [Hin | Hin]; [discriminate |].
      rewrite Ep in Ht. exact (Ht Hin).
    + repeat (destruct Hin as [Hin | Hin]; [discriminate |]).
      rewrite Ep in Ht. exact (Ht Hin).
  - destruct Hin.
  - destruct Hin.
  - exfalso. unfold setMasterVolume in Hin. case_ifs_in Hin; simpl in Hin;
      intuition discriminate.
  - destruct Hin.
  - destruct Hin.
  - exfalso. unfold previewLayer, init, startOscillator, applyTexture in Hin.
    destruct (audioContext e) eqn:Ec; [| destruct g]; simpl in Hin;
      try rewrite Ec in Hin; simpl in Hin.
    all: destruct (isPlaying e); simpl in Hin.
    all: case_ifs_in Hin; simpl in Hin; intuition discriminate.
  - destruct Hin.
  - destruct (animationFrameId e); [| destruct Hin].
    exact (tick_completion_detail e t d Hin).
  - destruct Hin.
Qed.

(** X15.  From an engine that is not playing, with a positive session
    duration, [play] starts a session exactly when a profile is loaded
    and an audio context exists or is granted; the session then has its
    audio context, oscillator and frame callback, starts at the current
    time, and reports no progress yet. *)

Theorem play_starts_session e now g :
  isPlaying e = false -> 0 < sessionDuration e ->
  let e' := fst (play e now g) in
  (isPlaying e' = true <->
     currentProfile e <> None /\ (audioContext e = true \/ g = Running)) /\
  (isPlaying e' = true ->
     audioContext e' = true /\ oscillator e' = true /\
     animationFrameId e' = true /\ sessionStartTime e' = now /\
     elapsed (getProgress e' now) = 0 /\
     progress (getProgress e' now) = 0 /\
     remaining (getProgress e' now) = sessionDuration e).
Proof.
  intros Hidle Hdur.
  destruct e as [ctx osc playing prof t0 dur frame pro n adj].
  simpl in Hidle, Hdur. subst playing.
  unfold play; simpl.
  destruct prof as [p|]; simpl.
  2: { split; [split; [discriminate | intros [H _]; now elim H] | discriminate]. }
  unfold init; simpl.
  destruct ctx; [| destruct g]; simpl.
  3: { split; [split; [discriminate | intros [_ [H | H]]; discriminate]
                | discriminate]. }
  3: { split; [split; [discriminate | intros [_ [H | H]]; discriminate]
                | discriminate]. }
  all: unfold startOscillator; simpl.
  all: match goal with
       | |- context [updateAudioParameters ?x ?y] =>
           match x with
           | context [Some ?q] =>
               rewrite (updateAudioParameters_running x y q);
                 try reflexivity; [| simpl; lra]
           end
       end; simpl.
  all: unfold getProgress; simpl.
  all: match goal with
       | |- context [(?y - ?y) / ?d] =>
           replace ((y - y) / d) with 0 by (unfold Rdiv; ring)
       end.
  all: split; [split; [intros _; split; [discriminate | auto]
                     | reflexivity] |].
  all: intros _; repeat split; try ring.
  all: unfold Rmin, Rmax; repeat destruct (Rle_dec _ _); lra.
Qed.

End LifecycleMore.

(* ================================================================= *)
(** ** Parameter scheduler, continued *)

Section SchedulerMore.

(** The table of modulation types: depths are at most 0.05, and only
    the keys [gentle] and [irregular] have an LFO. *)

Lemma modulation_lookup_depth key :
  0 <= lfoDepth (modulation_lookup key) <= 0.05.
Proof.
  unfold modulation_lookup, MODULATION_TYPES.
  destruct (String.eqb key "stable"); [simpl; lra |].
  destruct (String.eqb key "gentle"); [simpl; lra |].
  destruct (String.eqb key "irregular"); simpl; lra.
Qed.

Lemma modulation_lookup_stable key :
  key <> "gentle"%string -> key <> "irregular"%string ->
  modulation_lookup key = mkParams 0 0.
Proof.
  intros Hg Hi. unfold modulation_lookup, MODULATION_TYPES.
  apply String.eqb_neq in Hg, Hi. rewrite Hg, Hi.
  now destruct (String.eqb key "stable").
Qed.

Lemma deviation_bound (s depth amount : R) :
  -1 <= s <= 1 -> 0 <= depth <= 0.05 -> 0 <= amount <= 1.1 ->
  -1.1 <= s * depth * amount * 20 <= 1.1.
Proof.
  intros Hs Hd Ha.
  assert (Hda : 0 <= depth * amount <= 0.055) by nra.
  replace (s * depth * amount * 20) with (s * (depth * amount) * 20) by ring.
  split; nra.
Qed.

(** X16.  For a profile whose intensity is between 0 and 1, every
    oscillator frequency written by a tick from a reachable state is
    between 78.9 Hz and 401.1 Hz: the band of the frequency mapper,
    widened by the largest deviation the LFO can add. *)

Theorem tick_frequency_band e now :
  reachable e ->
  (forall p, currentProfile e = Some p -> 0 <= intensity p <= 1) ->
  Forall (fun f => 78.9 <= f <= 401.1)
    (targets_of OscillatorFrequency (snd (updateAudioParameters e now))).
Proof.
  intros Hreach Hint.
  apply reachable_invariant in Hreach as [(_ & _ & Hm) _].
  unfold updateAudioParameters.
  destruct (currentProfile e) as [p|] eqn:Ep; [| constructor].
  specialize (Hint p eq_refl).
  destruct (negb (isPlaying e)); [constructor |].
  destruct (Rleb _ 0); [constructor |].
  simpl snd. rewrite !targets_of_app.
  apply Forall_app; split; [| apply Forall_app; split;
    [| apply Forall_app; split; [| apply Forall_app; split]]].
  - destruct (oscillator e); [| constructor]. simpl.
    constructor; [| constructor].
    match goal with |- _ <= mapToFrequency ?v <= _ =>
      pose proof (mapToFrequency_bounds v) end. lra.
  - unfold applyTexture. destruct (negb (filter e)); constructor.
  - unfold applyModulation. rewrite Ep.
    destruct (negb (oscillator e)); [constructor |].
    destruct (Rgtb _ 0); [| constructor]. simpl.
    constructor; [| constructor].
    match goal with |- _ <= mapToFrequency ?v + ?dev <= _ =>
      pose proof (mapToFrequency_bounds v);
      assert (-1.1 <= dev <= 1.1)
    end; [| lra].
    apply deviation_bound;
      [apply SIN_bound | apply modulation_lookup_depth | lra].
  - unfold applySilenceBlocks. rewrite Ep.
    destruct (negb (silenceGate e)); constructor.
  - unfold applySubtlePanning. destruct (negb (panner e)); constructor.
Qed.

(** X17.  For a profile whose modulation type is neither [gentle] nor
    [irregular] (so also for an unknown type), [applyModulation] writes
    nothing, and the frequency a tick of a playing session leaves on
    the oscillator is the mapped curve value with the Pro Mode
    frequency offset applied. *)

Theorem unmodulated_tick_applies_offset e now p :
  reachable e -> isPlaying e = true -> currentProfile e = Some p ->
  now - sessionStartTime e < sessionDuration e ->
  modulation_type p <> "gentle"%string ->
  modulation_type p <> "irregular"%string ->
  let pr := progress (getProgress e now) in
  applyModulation e now pr = [] /\
  last_target OscillatorFrequency (snd (updateAudioParameters e now)) =
  Some (mapToFrequency
          (interpolateCurve (curve p) pr
           + frequencyOffset (proModeAdjustments e))).
Proof.
  intros Hreach Hplay Hp Hlt Hg Hi pr.
  destruct (reachable_session e Hreach) as (Hres & _).
  destruct (Hres Hplay) as (Hctx & Hosc & _).
  assert (Hmod : applyModulation e now pr = []).
  { unfold applyModulation. rewrite Hp, Hosc. simpl.
    rewrite (modulation_lookup_stable _ Hg Hi). simpl.
    cmp_false (Rgtb 0 0). reflexivity. }
  split; [exact Hmod |].
  rewrite (updateAudioParameters_running e now p) by assumption.
  unfold last_target. simpl snd.
  assert (Hpr : Rmin 1 ((now - sessionStartTime e) / sessionDuration e) = pr).
  { unfold pr, getProgress. now rewrite Hplay, Hctx. }
  rewrite Hpr, Hmod.
  unfold applyTexture, applySilenceBlocks, applySubtlePanning, filter,
    silenceGate, panner.
  rewrite Hp, Hctx. reflexivity.
Qed.

(** X18.  A preview while a session plays leaves the engine as it is,
    and so does the timer it arms; the preview of the base frequency
    writes one oscillator target, the mapped value, and a layer other
    than the base frequency and the texture writes nothing. *)

Theorem previewLayer_during_session e layer v now g :
  reachable e -> isPlaying e = true ->
  fst (previewLayer e layer v now g) = e /\
  previewTimeout e = e /\
  (layer = "baseFrequency"%string ->
     snd (previewLayer e layer v now g)
     = [SetTargetAtTime OscillatorFrequency (mapToFrequency v) now 0.05]) /\
  (layer <> "baseFrequency"%string -> layer <> "texture"%string ->
     snd (previewLayer e layer v now g) = []).
Proof.
  intros Hreach Hplay.
  destruct (reachable_session e Hreach) as (Hres & _).
  destruct (Hres Hplay) as (Hctx & Hosc & _).
  unfold previewLayer, previewTimeout, init.
  rewrite Hctx, Hplay. simpl. rewrite Hosc.
  repeat split.
  - intros ->. reflexivity.
  - intros Hb Ht. apply String.eqb_neq in Hb, Ht. now rewrite Hb, Ht.
Qed.

End SchedulerMore.

(* ================================================================= *)
(** ** Adaptive controller, continued *)

Section AdaptiveMore.

(** [recordInteraction] touches the interaction count and the offsets
    only. *)

Lemma recordInteraction_session e now :
  set_proModeAdjustments (proModeAdjustments e)
    (set_interactionCount (interactionCount e) (recordInteraction e now)) = e.
Proof.
  destruct e as [ctx osc playing prof t0 dur frame pro n adj].
  unfold recordInteraction; simpl.
  destruct pro, playing; simpl; try reflexivity.
  destruct (js_gtb _ 2); [reflexivity |].
  destruct (Rgtb _ 300 && js_ltb _ 0.5); reflexivity.
Qed.

Lemma recordInteraction_fields e now :
  isPlaying (recordInteraction e now) = isPlaying e /\
  proModeEnabled (recordInteraction e now) = proModeEnabled e /\
  sessionStartTime (recordInteraction e now) = sessionStartTime e.
Proof.
  pose proof (recordInteraction_session e now) as H.
  rewrite <- H at 2 4 6. repeat split.
Qed.

(** One interaction in the first half minute of a session. *)

Lemma early_interaction e now :
  proModeEnabled e = true -> isPlaying e = true -> audioContext e = true ->
  0 <= now - sessionStartTime e < 30 ->
  proModeAdjustments (recordInteraction e now) =
  mkAdjustments
    (Rmax (-0.1) (frequencyOffset (proModeAdjustments e) - 0.01))
    (Rmax (-0.1) (textureOffset (proModeAdjustments e) - 0.01))
    (modulationOffset (proModeAdjustments e)) /\
  interactionCount (recordInteraction e now) = S (interactionCount e).
Proof.
  intros Hpro Hplay Hctx Hel.
  destruct e as [ctx osc playing prof t0 dur frame pro n adj].
  simpl in *. subst pro playing ctx.
  unfold recordInteraction, getProgress. cbn -[INR].
  set (el := now - t0) in *.
  assert (Hn : 1 <= INR (S n)).
  { rewrite S_INR. pose proof (pos_INR n). lra. }
  assert (Hrate : js_gtb (js_div (INR (S n)) (el / 60)) 2 = true).
  { apply js_gtb_true. unfold js_div.
    destruct (Req_dec_T (el / 60) 0) as [Hz | Hnz].
    - destruct (Rlt_dec 0 (INR (S n))); [exact I | lra].
    - cbn -[INR].
      assert (Hpos : 0 < el / 60 < 0.5) by lra.
      assert (Hinv : 2 < / (el / 60)).
      { replace 2 with (/ 0.5) by lra.
        apply Rinv_lt_contravar; [apply Rmult_lt_0_compat; lra | lra]. }
      unfold Rdiv at 1.
      generalize dependent (/ (el / 60)). generalize dependent (INR (S n)).
      intros x Hx i Hi. nra. }
  rewrite Hrate. split; reflexivity.
Qed.

(** X19.  With Pro Mode on, an interaction recorded during the first 30
    seconds of a session always counts as a high interaction rate: it
    lowers the frequency and texture offsets by 0.01, floored at -0.1,
    and leaves the modulation offset as it is. *)

Theorem early_interaction_lowers_offsets e now :
  reachable e -> proModeEnabled e = true -> isPlaying e = true ->
  0 <= now - sessionStartTime e < 30 ->
  proModeAdjustments (recordInteraction e now) =
  mkAdjustments
    (Rmax (-0.1) (frequencyOffset (proModeAdjustments e) - 0.01))
    (Rmax (-0.1) (textureOffset (proModeAdjustments e) - 0.01))
    (modulationOffset (proModeAdjustments e)).
Proof.
  intros Hreach Hpro Hplay Hel.
  destruct (reachable_session e Hreach) as (Hres & _).
  destruct (Hres Hplay) as (Hctx & _).
  now apply early_interaction.
Qed.

(** Lowering an offset [k] times, in exact arithmetic. *)

Lemma lower_offset_iter (k : nat) (x : R) :
  -0.1 <= x -> Nat.iter k lower_offset x = Rmax (-0.1) (x - 0.01 * INR k).
Proof.
  intros Hx. induction k as [|k IH].
  - simpl. rewrite Rmult_0_r, Rminus_0_r. now rewrite Rmax_right.
  - rewrite Nat.iter_succ, IH, S_INR. unfold lower_offset, Rmax.
    pose proof (pos_INR k). repeat destruct (Rle_dec _ _); lra.
Qed.

Lemma burst e times :
  proModeEnabled e = true -> isPlaying e = true -> audioContext e = true ->
  Forall (fun t => 0 <= t - sessionStartTime e < 30) times ->
  let k := List.length times in
  let a := proModeAdjustments e in
  proModeAdjustments (interactions times e) =
  mkAdjustments (Nat.iter k lower_offset (frequencyOffset a))
    (Nat.iter k lower_offset (textureOffset a)) (modulationOffset a) /\
  interactionCount (interactions times e) = (interactionCount e + k)%nat.
Proof.
  revert e. induction times as [|t times IH]; intros e Hpro Hplay Hctx Hall.
  - simpl. split; [now destruct (proModeAdjustments e) |].
    now rewrite Nat.add_0_r.
  - inversion Hall as [|? ? Ht Hrest]; subst.
    destruct (early_interaction e t Hpro Hplay Hctx Ht) as [Hadj Hcount].
    destruct (recordInteraction_fields e t) as (Hp' & Hpro' & Hs').
    assert (Hctx' : audioContext (recordInteraction e t) = true).
    { pose proof (recordInteraction_session e t) as H.
      rewrite <- H in Hctx. exact Hctx. }
    intros k a.
    change (interactions (t :: times) e)
      with (interactions times (recordInteraction e t)).
    specialize (IH (recordInteraction e t)).
    rewrite Hpro', Hp', Hs' in IH.
    specialize (IH Hpro Hplay Hctx' Hrest).
    rewrite Hadj, Hcount in IH. simpl in IH.
    destruct IH as [IHadj IHcount].
    rewrite IHadj, IHcount. unfold k.
    change (List.length (t :: times)) with (S (List.length times)).
    rewrite !Nat.iter_succ_r.
    split; [reflexivity | lia].
Qed.

(** X20.  A burst of interactions, all within the first 30 seconds of a
    session with Pro Mode on: after [k] of them the frequency and the
    texture offset have each gone [k] times through
    [Math.max(-0.1, x - 0.01)], the modulation offset is unchanged and
    the interaction count has grown by [k]; from eleven interactions on,
    both offsets sit at -0.1.  (Ten subtractions of 0.01 reach -0.1 from
    0 only in exact arithmetic: see [lower_offset64_from_zero].) *)

Theorem burst_saturates e times :
  reachable e -> proModeEnabled e = true -> isPlaying e = true ->
  Forall (fun t => 0 <= t - sessionStartTime e < 30) times ->
  let k := List.length times in
  let a := proModeAdjustments e in
  let e' := interactions times e in
  proModeAdjustments e' =
  mkAdjustments (Nat.iter k lower_offset (frequencyOffset a))
    (Nat.iter k lower_offset (textureOffset a)) (modulationOffset a) /\
  interactionCount e' = (interactionCount e + k)%nat /\
  ((11 <= k)%nat ->
     frequencyOffset (proModeAdjustments e') = -0.1 /\
     textureOffset (proModeAdjustments e') = -0.1).
Proof.
  intros Hreach Hpro Hplay Hall k a e'.
  destruct (reachable_session e Hreach) as (Hres & _).
  destruct (Hres Hplay) as (Hctx & _).
  apply reachable_invariant in Hreach as [(Hf & Ht & _) _].
  destruct (burst e times Hpro Hplay Hctx Hall) as [Hadj Hcount].
  fold e' in Hadj, Hcount. fold a k in Hadj. fold k in Hcount.
  split; [exact Hadj |]. split; [exact Hcount |].
  intros Heleven. rewrite Hadj. simpl.
  assert (Hk : 11 <= INR k).
  { replace 11 with (INR 11) by (simpl; lra). now apply le_INR. }
  fold a in Hf, Ht.
  rewrite !lower_offset_iter by tauto.
  split; apply Rmax_left; lra.
Qed.

(** The same statement in binary64, from the offset 0: ten subtractions
    of 0.01 leave -0.09999999999999999, above the floor, and the
    eleventh reaches -0.1. *)

#[warnings="-inexact-float"]
Lemma lower_offset64_from_zero :
  Nat.iter 10 lower_offset64 0%float = (-0.09999999999999999)%float /\
  PrimFloat.ltb (-0.1) (Nat.iter 10 lower_offset64 0%float) = true /\
  Nat.iter 11 lower_offset64 0%float = (-0.1)%float.
Proof. repeat split; vm_compute; reflexivity. Qed.

(** X21.  A recorded interaction never raises the frequency or texture
    offset, never lowers the modulation offset or the interaction
    count, and cannot change the modulation offset before more than 300
    seconds of the session have elapsed. *)

Theorem recordInteraction_monotone e now :
  reachable e ->
  let a := proModeAdjustments e in
  let a' := proModeAdjustments (recordInteraction e now) in
  frequencyOffset a' <= frequencyOffset a /\
  textureOffset a' <= textureOffset a /\
  modulationOffset a <= modulationOffset a' /\
  (interactionCount e <= interactionCount (recordInteraction e now))%nat /\
  (now - sessionStartTime e <= 300 -> modulationOffset a' = modulationOffset a).
Proof.
  intros Hreach.
  destruct (reachable_session e Hreach) as (Hres & _).
  apply reachable_invariant in Hreach as [(Hf & Ht & Hm) _].
  destruct e as [ctx osc playing prof t0 dur frame pro n adj].
  unfold recordInteraction, getProgress; simpl in *.
  destruct pro; simpl; [| repeat split; try lra; lia].
  destruct playing; simpl; [| repeat split; try lra; lia].
  destruct (Hres eq_refl) as (-> & _). simpl.
  destruct (js_gtb _ 2); simpl.
  - repeat split; try lra; try lia.
    all: unfold Rmax; destruct (Rle_dec _ _); lra.
  - destruct (Rgtb (now - t0) 300) eqn:E; simpl; cmp_cases.
    + destruct (js_ltb _ 0.5); simpl; repeat split; try lra; try lia.
      unfold Rmin; destruct (Rle_dec _ _); lra.
    + repeat split; try lra; lia.
Qed.

End AdaptiveMore.

(* ================================================================= *)
(** ** Silence blocks, continued *)

Section SilenceMore.

(** X22.  A silence block with a positive duration mutes its own start,
    whatever other blocks there are; a block alone does not mute its
    end; and a block whose duration is not positive mutes nothing. *)

Theorem silence_block_boundaries b bs t :
  (In b bs -> 0 < block_duration b -> isSilent bs (start b) = true) /\
  isSilent [b] (start b + block_duration b) = false /\
  (block_duration b <= 0 -> isSilent (b :: bs) t = isSilent bs t).
Proof.
  repeat split.
  - intros Hin Hpos. apply isSilent_true. apply Exists_exists.
    exists b. split; [exact Hin |]. unfold in_block. lra.
  - simpl. cmp_false (Rltb (start b + block_duration b)
                            (start b + block_duration b)).
    now rewrite andb_false_r.
  - intros Hneg. simpl.
    destruct (Rgeb t (start b)) eqn:E1; [| reflexivity].
    destruct (Rltb t (start b + block_duration b)) eqn:E2; [| reflexivity].
    cmp_cases. lra.
Qed.

(** X23.  The silence gate depends only on which blocks there are, not
    on their order in the list nor on how often one is listed. *)

Theorem silence_gate_set_of_blocks bs bs' t :
  (forall b, In b bs <-> In b bs') -> isSilent bs t = isSilent bs' t.
Proof.
  intros Hsame.
  assert (H : Exists (in_block t) bs <-> Exists (in_block t) bs').
  { rewrite !Exists_exists. split; intros (b & Hin & Hb); exists b;
      (split; [now apply Hsame | exact Hb]). }
  destruct (isSilent bs t) eqn:E1, (isSilent bs' t) eqn:E2; try reflexivity.
  - apply isSilent_true in E1. apply H, isSilent_true in E1. congruence.
  - apply isSilent_true in E2. apply H, isSilent_true in E2. congruence.
Qed.

End SilenceMore.

(* ================================================================= *)
(** ** Instances of the further properties *)

Section MoreInstances.

Lemma playing_engine_reachable : reachable playing_engine.
Proof.
  unfold playing_engine. rewrite <- playing_session_state.
  apply reachable_run. constructor.
Qed.

Lemma applyTexture_ranges_witness :
  exists fc q d,
    applyTexture playing_engine 2 0.3 =
    [ SetTargetAtTime FilterFrequency fc 2 0.1;
      SetTargetAtTime FilterQ q 2 0.1;
      SetTargetAtTime DensityGain d 2 0.1 ] /\
    200 <= fc <= 2000 /\ 0.5 <= q <= 8 /\ 0.7 <= d <= 1 /\
    (0 <= 0.3 <= 1 ->
       fc = 2000 - 0.3 * 1800 /\ q = 0.5 + 0.3 * 7.5 /\ d = 0.7 + 0.3 * 0.3).
Proof. apply (applyTexture_ranges playing_engine 2 0.3). reflexivity. Defined.

Lemma applyTexture_inverse_cutoff_witness :
  exists fu qu du fv qv dv,
    targets_of FilterFrequency (applyTexture playing_engine 2 0.3) = [fu] /\
    targets_of FilterQ (applyTexture playing_engine 2 0.3) = [qu] /\
    targets_of DensityGain (applyTexture playing_engine 2 0.3) = [du] /\
    targets_of FilterFrequency (applyTexture playing_engine 2 0.8) = [fv] /\
    targets_of FilterQ (applyTexture playing_engine 2 0.8) = [qv] /\
    targets_of DensityGain (applyTexture playing_engine 2 0.8) = [dv] /\
    fv <= fu /\ qu <= qv /\ du <= dv.
Proof.
  apply (applyTexture_inverse_cutoff playing_engine 2 0.3 0.8);
    [reflexivity | lra].
Defined.

Lemma interpolateCurve_piecewise_linear_witness :
  interpolateCurve (Some focus_curve) 0.75
  = 0.5 + (0.45 - 0.5) * ((0.75 - 0.5) / (1 - 0.5)).
Proof.
  apply (interpolateCurve_piecewise_linear
           [mkPoint 0 0.45] (mkPoint 0.5 0.5) (mkPoint 1 0.45) [] 0.75).
  - simpl. lra.
  - simpl. lra.
  - intros _. simpl. lra.
Defined.

Lemma interpolateCurve_through_points_witness :
  (forall a r, focus_curve = a :: r ->
     interpolateCurve (Some focus_curve) (time a) = value a) /\
  (forall l1 a q l2, focus_curve = l1 ++ a :: q :: l2 ->
     interpolateCurve (Some focus_curve) (time q)
     = value a + (value q - value a)).
Proof.
  apply (interpolateCurve_through_points focus_curve).
  simpl. lra.
Defined.

(** Beyond its last point the ramp keeps climbing: at 0.6 the
    interpolator answers 2, above every value of the curve. *)

Lemma interpolateCurve_outside_span_witness :
  interpolateCurve (Some ramp_curve) 0.6
  = 0 + (1 - 0) * ((0.6 - 0.2) / (0.4 - 0.2)).
Proof.
  destruct (interpolateCurve_outside_span
              (mkPoint 0.2 0) (mkPoint 0.4 1) [] 0.6) as [_ H].
  - left. intros q [<- | [<- | []]]; simpl; lra.
  - apply H. simpl. lra.
Defined.

Lemma playing_session_has_resources_witness :
  audioContext playing_engine = true /\ oscillator playing_engine = true /\
  currentProfile playing_engine <> None.
Proof.
  apply (playing_session_has_resources playing_engine).
  - exact playing_engine_reachable.
  - reflexivity.
Defined.

Lemma session_completes_once_witness :
  exists d,
    step (OpFrame 1500) playing_engine
    = (stop playing_engine, [SessionComplete d]) /\
    completed_duration d = sessionDuration playing_engine /\
    isPlaying (stop playing_engine) = false /\
    (forall later,
       step (OpFrame later) (stop playing_engine) = (stop playing_engine, [])) /\
    (forall later, recordInteraction (stop playing_engine) later
                   = stop playing_engine).
Proof.
  apply (session_completes_once playing_engine 1500).
  - exact playing_engine_reachable.
  - reflexivity.
  - simpl. lra.
Defined.

Lemma completion_payload_witness :
  exists p,
    currentProfile (fst (run adapted_session initial_engine)) = Some p /\
    profileId adapted_completion = id p /\
    profileName adapted_completion = Some (name p) /\
    completed_duration adapted_completion
    = sessionDuration (fst (run adapted_session initial_engine)) /\
    completed_proModeEnabled adapted_completion
    = proModeEnabled (fst (run adapted_session initial_engine)) /\
    (proModeEnabled (fst (run adapted_session initial_engine)) = false ->
       wasAdapted adapted_completion = false).
Proof.
  apply (completion_payload
           (fst (run adapted_session initial_engine)) (OpFrame 2000)).
  exact adapted_session_completes.
Defined.

Lemma play_starts_session_witness :
  let e := loadProfile initial_engine readme_profile in
  let e' := fst (play e 3 Running) in
  (isPlaying e' = true <->
     currentProfile e <> None /\ (audioContext e = true \/ Running = Running)) /\
  (isPlaying e' = true ->
     audioContext e' = true /\ oscillator e' = true /\
     animationFrameId e' = true /\ sessionStartTime e' = 3 /\
     elapsed (getProgress e' 3) = 0 /\
     progress (getProgress e' 3) = 0 /\
     remaining (getProgress e' 3) = sessionDuration e).
Proof.
  apply (play_starts_session (loadProfile initial_engine readme_profile) 3 Running).
  - reflexivity.
  - simpl. lra.
Defined.

Lemma tick_frequency_band_witness :
  Forall (fun f => 78.9 <= f <= 401.1)
    (targets_of OscillatorFrequency
       (snd (updateAudioParameters playing_engine 2.5))).
Proof.
  apply (tick_frequency_band playing_engine 2.5).
  - exact playing_engine_reachable.
  - intros p [= <-]. simpl. lra.
Defined.

Lemma deep_session_state :
  fst (run deep_session initial_engine) =
  mkEngine true true true (Some deep_profile) 0 2700 true false 0
    (mkAdjustments 0 0 0).
Proof.
  unfold deep_session, run, step.
  unfold loadProfile; simpl.
  unfold play, init, startOscillator; simpl.
  rewrite (updateAudioParameters_running _ 0 deep_profile);
    simpl; try reflexivity; lra.
Qed.

Lemma unmodulated_tick_applies_offset_witness :
  let e := fst (run deep_session initial_engine) in
  let pr := progress (getProgress e 810) in
  applyModulation e 810 pr = [] /\
  last_target OscillatorFrequency (snd (updateAudioParameters e 810)) =
  Some (mapToFrequency
          (interpolateCurve (curve deep_profile) pr
           + frequencyOffset (proModeAdjustments e))).
Proof.
  apply (unmodulated_tick_applies_offset
           (fst (run deep_session initial_engine)) 810 deep_profile).
  - apply reachable_run. constructor.
  - now rewrite deep_session_state.
  - now rewrite deep_session_state.
  - rewrite deep_session_state. simpl. lra.
  - discriminate.
  - discriminate.
Defined.

Lemma previewLayer_during_session_witness :
  fst (previewLayer playing_engine "texture" 0.6 4 Running) = playing_engine /\
  previewTimeout playing_engine = playing_engine /\
  ("texture"%string = "baseFrequency"%string ->
     snd (previewLayer playing_engine "texture" 0.6 4 Running)
     = [SetTargetAtTime OscillatorFrequency (mapToFrequency 0.6) 4 0.05]) /\
  ("texture"%string <> "baseFrequency"%string ->
   "texture"%string <> "texture"%string ->
     snd (previewLayer playing_engine "texture" 0.6 4 Running) = []).
Proof.
  apply (previewLayer_during_session playing_engine "texture" 0.6 4 Running).
  - exact playing_engine_reachable.
  - reflexivity.
Defined.

Lemma early_interaction_lowers_offsets_witness :
  proModeAdjustments (recordInteraction playing_engine 12) =
  mkAdjustments (Rmax (-0.1) (0 - 0.01)) (Rmax (-0.1) (0 - 0.01)) 0.
Proof.
  apply (early_interaction_lowers_offsets playing_engine 12).
  - exact playing_engine_reachable.
  - reflexivity.
  - reflexivity.
  - simpl. lra.
Defined.

Lemma burst_saturates_witness :
  let times := [1; 2; 3; 4; 5; 6; 7; 8; 9; 10; 11; 12] in
  let k := List.length times in
  let e' := interactions times playing_engine in
  proModeAdjustments e' =
  mkAdjustments (Nat.iter k lower_offset 0) (Nat.iter k lower_offset 0) 0 /\
  interactionCount e' = (0 + k)%nat /\
  ((11 <= k)%nat ->
     frequencyOffset (proModeAdjustments e') = -0.1 /\
     textureOffset (proModeAdjustments e') = -0.1).
Proof.
  apply (burst_saturates playing_engine [1; 2; 3; 4; 5; 6; 7; 8; 9; 10; 11; 12]).
  - exact playing_engine_reachable.
  - reflexivity.
  - reflexivity.
  - repeat constructor; simpl; lra.
Defined.

Lemma recordInteraction_monotone_witness :
  let a := proModeAdjustments playing_engine in
  let a' := proModeAdjustments (recordInteraction playing_engine 400) in
  frequencyOffset a' <= frequencyOffset a /\
  textureOffset a' <= textureOffset a /\
  modulationOffset a <= modulationOffset a' /\
  (interactionCount playing_engine
   <= interactionCount (recordInteraction playing_engine 400))%nat /\
  (400 - sessionStartTime playing_engine <= 300 ->
     modulationOffset a' = modulationOffset a).
Proof.
  apply (recordInteraction_monotone playing_engine 400).
  exact playing_engine_reachable.
Defined.

Lemma silence_gate_set_of_blocks_witness :
  isSilent [mkBlock 10 5; mkBlock 12 5] 13
  = isSilent [mkBlock 12 5; mkBlock 10 5; mkBlock 12 5] 13.
Proof.
  apply (silence_gate_set_of_blocks
           [mkBlock 10 5; mkBlock 12 5]
           [mkBlock 12 5; mkBlock 10 5; mkBlock 12 5] 13).
  intros b. simpl. tauto.
Defined.

Lemma setMasterVolume_clamped_witness :
  exists g,
    setMasterVolume playing_engine 2 1.4 = [SetTargetAtTime MasterGain g 2 0.1] /\
    0 <= g <= 1 /\ (0 <= 1.4 <= 1 -> g = 1.4).
Proof.
  destruct (setMasterVolume_clamped playing_engine 2 1.4) as [_ H].
  apply H. reflexivity.
Defined.

Lemma applySubtlePanning_range_witness :
  exists pan,
    applySubtlePanning playing_engine 2 0.5
    = [SetTargetAtTime PannerPan pan 2 0.1] /\
    -0.1 <= pan <= 0.1.
Proof.
  destruct (applySubtlePanning_range playing_engine 2 0.5) as [_ H].
  apply H. reflexivity.
Defined.

Lemma getProgress_bounds_witness :
  let info := getProgress playing_engine 375 in
  elapsed info = 375 - sessionStartTime playing_engine /\
  0 <= progress info <= 1 /\
  0 <= remaining info <= sessionDuration playing_engine /\
  (elapsed info <= sessionDuration playing_engine ->
     remaining info = sessionDuration playing_engine - elapsed info /\
     progress info = elapsed info / sessionDuration playing_engine) /\
  (sessionDuration playing_engine <= elapsed info ->
     remaining info = 0 /\ progress info = 1).
Proof.
  destruct (getProgress_bounds playing_engine 375) as [_ H].
  apply H; try reflexivity; simpl; lra.
Defined.

Lemma silence_block_boundaries_witness :
  isSilent [mkBlock 10 5; mkBlock 420 4] 420 = true.
Proof.
  destruct (silence_block_boundaries
              (mkBlock 420 4) [mkBlock 10 5; mkBlock 420 4] 0) as [H _].
  apply H; simpl; [tauto | lra].
Defined.

End MoreInstances.

(* ================================================================= *)
(** ** The curve editor *)

Section CurveEditor.

Implicit Types (c : list point) (p q : point).

(** [increasing] looks at the times only. *)

Lemma increasing_times c c' :
  map time c = map time c' -> increasing c -> increasing c'.
Proof.
  revert c'. induction c as [|a c IH]; intros [|a' c'] Hmap; try easy.
  injection Hmap as Ha Hc.
  destruct c as [|b c], c' as [|b' c']; try easy.
  injection Hc as Hb Hc. intros [Hab Hrest].
  split; [lra |]. apply IH; [simpl; congruence | exact Hrest].
Qed.

Lemma increasing_cons a c :
  (forall q, In q c -> time a < time q) -> increasing c -> increasing (a :: c).
Proof.
  intros Hlow Hinc. destruct c as [|b c]; [exact I |].
  split; [apply Hlow; now left | exact Hinc].
Qed.

Lemma increasing_lower a c :
  increasing (a :: c) -> forall q, In q c -> time a < time q.
Proof.
  revert a. induction c as [|b c IH]; intros a Hinc q Hq; [destruct Hq |].
  destruct Hinc as [Hab Hrest].
  destruct Hq as [<- | Hq]; [exact Hab |].
  specialize (IH b Hrest q Hq). lra.
Qed.

Lemma insert_by_time_In p c q :
  In q (insert_by_time p c) <-> q = p \/ In q c.
Proof.
  induction c as [|a c IH]; simpl.
  - split; intros [H | H]; auto.
  - destruct (Rleb (time p) (time a)); simpl; [| rewrite IH]; intuition.
Qed.

Lemma insert_by_time_increasing p c :
  increasing c -> (forall q, In q c -> time q <> time p) ->
  increasing (insert_by_time p c).
Proof.
  induction c as [|a c IH]; intros Hinc Hne; [exact I |].
  simpl. destruct (Rleb (time p) (time a)) eqn:E; cmp_cases.
  - split; [| exact Hinc].
    specialize (Hne a (or_introl eq_refl)). lra.
  - apply increasing_cons.
    + intros q Hq. apply insert_by_time_In in Hq as [-> | Hq]; [exact E |].
      exact (increasing_lower a c Hinc q Hq).
    + apply IH; [exact (increasing_tail _ _ Hinc) |].
      intros q Hq. apply Hne. now right.
Qed.

Lemma sort_new_point_In p c q :
  In q (sort_by_time (c ++ [p])) <-> q = p \/ In q c.
Proof.
  unfold sort_by_time. rewrite fold_right_app. simpl.
  induction c as [|a c IH]; simpl; [intuition |].
  rewrite insert_by_time_In, IH. intuition.
Qed.

Lemma sort_new_point_increasing p c :
  increasing c -> (forall q, In q c -> time q <> time p) ->
  increasing (sort_by_time (c ++ [p])).
Proof.
  intros Hinc Hne.
  assert (Hsort : forall c', sort_by_time (c' ++ [p])
                             = fold_right insert_by_time [p] c').
  { intros c'. unfold sort_by_time. now rewrite fold_right_app. }
  induction c as [|a c IH]; [exact I |].
  rewrite Hsort. simpl. rewrite <- Hsort.
  apply insert_by_time_increasing.
  - apply IH; [exact (increasing_tail _ _ Hinc) |].
    intros q Hq. apply Hne. now right.
  - intros q Hq. apply sort_new_point_In in Hq as [-> | Hq].
    + apply not_eq_sym, Hne. now left.
    + pose proof (increasing_lower a c Hinc q Hq). lra.
Qed.

Lemma findIndex_near_None x c :
  findIndex_near x c = None ->
  forall q, In q c -> 0.05 <= Rabs (time q - x).
Proof.
  induction c as [|a c IH]; simpl; [intros _ q [] |].
  destruct (Rltb (Rabs (time a - x)) 0.05) eqn:E; [discriminate |].
  destruct (findIndex_near x c); [discriminate |].
  intros _ q [<- | Hq]; [now cmp_cases | now apply IH].
Qed.

Lemma set_value_times i y c : map time (set_value i y c) = map time c.
Proof.
  revert i. induction c as [|a c IH]; intros [|i]; simpl; try reflexivity.
  now rewrite IH.
Qed.

Lemma set_value_length i y c :
  List.length (set_value i y c) = List.length c.
Proof.
  rewrite <- (length_map time (set_value i y c)), set_value_times.
  apply length_map.
Qed.

Lemma set_value_points i y c q :
  In q (set_value i y c) ->
  In q c \/ (value q = y /\ exists q0, In q0 c /\ time q = time q0).
Proof.
  revert i. induction c as [|a c IH]; intros [|i]; simpl; try tauto.
  - intros [<- | Hq]; [right | tauto].
    split; [reflexivity |]. exists a. simpl. tauto.
  - intros [<- | Hq]; [tauto |].
    destruct (IH i Hq) as [H | (Hv & q0 & Hq0 & Ht)]; [tauto |].
    right. split; [exact Hv |]. exists q0. tauto.
Qed.

Lemma findIndex_near_Some x y c i :
  findIndex_near x c = Some i ->
  exists q, In q (set_value i y c) /\ value q = y /\
            Rabs (time q - x) < 0.05.
Proof.
  revert i. induction c as [|a c IH]; simpl; [discriminate |].
  destruct (Rltb (Rabs (time a - x)) 0.05) eqn:E.
  - intros i [= <-]. cmp_cases.
    exists (mkPoint (time a) y). simpl. tauto.
  - destruct (findIndex_near x c) as [j|]; [| discriminate].
    intros i [= <-]. destruct (IH j eq_refl) as (q & Hq & Hv & Ht).
    exists q. simpl. tauto.
Qed.

Lemma updateCurve_well_formed_aux c fx fy :
  increasing c ->
  increasing (fst (updateCurve c fx fy)) /\
  exists q,
    In q (fst (updateCurve c fx fy)) /\
    value q = snd (updateCurve c fx fy) /\
    Rabs (time q - Rmax 0 (Rmin 1 fx)) < 0.05.
Proof.
  intros Hinc. unfold updateCurve.
  set (x := Rmax 0 (Rmin 1 fx)). set (y := Rmax 0 (Rmin 1 (1 - fy))).
  destruct (findIndex_near x c) as [i|] eqn:E; simpl.
  - split.
    + apply (increasing_times c); [| exact Hinc].
      symmetry. apply set_value_times.
    + exact (findIndex_near_Some x y c i E).
  - split.
    + apply sort_new_point_increasing; [exact Hinc |].
      intros q Hq Heq. pose proof (findIndex_near_None x c E q Hq) as Hfar.
      simpl in Heq. rewrite Heq in Hfar.
      replace (x - x) with 0 in Hfar by ring. rewrite Rabs_R0 in Hfar. lra.
    + exists (mkPoint x y). split; [apply sort_new_point_In; now left |].
      simpl. split; [reflexivity |].
      replace (x - x) with 0 by ring. rewrite Rabs_R0. lra.
Qed.

(** X24.  The curve editor keeps a curve well formed: if the times of
    the curve increase strictly and all its points have time and value
    in [0,1], the same holds after [updateCurve] at any pointer
    position, and the curve has the same number of points or one
    more. *)

Theorem updateCurve_keeps_curve_well_formed c fx fy :
  increasing c -> Forall unit_point c ->
  let c' := fst (updateCurve c fx fy) in
  increasing c' /\ Forall unit_point c' /\
  (List.length c <= List.length c' <= S (List.length c))%nat.
Proof.
  intros Hinc Hunit. unfold updateCurve.
  set (x := Rmax 0 (Rmin 1 fx)). set (y := Rmax 0 (Rmin 1 (1 - fy))).
  assert (Hx : 0 <= x <= 1) by apply clamp_unit.
  assert (Hy : 0 <= y <= 1) by apply clamp_unit.
  destruct (findIndex_near x c) as [i|] eqn:E; simpl.
  - split; [| split].
    + apply (increasing_times c); [| exact Hinc].
      symmetry. apply set_value_times.
    + apply Forall_forall. intros q Hq. rewrite Forall_forall in Hunit.
      destruct (set_value_points i y c q Hq)
        as [H | (Hv & q0 & Hq0 & Ht)]; [now apply Hunit |].
      destruct (Hunit q0 Hq0) as [Ht0 _].
      unfold unit_point. rewrite Hv, Ht. tauto.
    + rewrite set_value_length. lia.
  - assert (Hne : forall q, In q c -> time q <> time (mkPoint x y)).
    { intros q Hq Heq. pose proof (findIndex_near_None x c E q Hq) as Hfar.
      simpl in Heq. rewrite Heq in Hfar.
      replace (x - x) with 0 in Hfar by ring. rewrite Rabs_R0 in Hfar. lra. }
    split; [| split].
    + now apply sort_new_point_increasing.
    + apply Forall_forall. intros q Hq. rewrite Forall_forall in Hunit.
      apply sort_new_point_In in Hq as [-> | Hq]; [| now apply Hunit].
      unfold unit_point. simpl. tauto.
    + assert (Hlen : forall l, List.length (sort_by_time l) = List.length l).
      { assert (Hins : forall p l,
                  List.length (insert_by_time p l) = S (List.length l)).
        { intros p l. induction l as [|a l IH]; simpl; [reflexivity |].
          destruct (Rleb (time p) (time a)); simpl; [reflexivity |].
          now rewrite IH. }
        intros l. induction l as [|a l IH]; simpl; [reflexivity |].
        unfold sort_by_time in *. simpl. now rewrite Hins, IH. }
      rewrite Hlen, length_app. simpl. lia.
Qed.

(** X25.  After an edit of a curve whose times increase strictly, the
    curve has a point within 0.05 of the (clamped) pointer time that
    carries the pointer value, the value that is previewed.  At the
    time of that point the interpolator returns the pointer value when
    the point is the first of the curve, and otherwise, with [a] the
    point before it, the sum [a.value + (y - a.value)]: the pointer
    value [y] up to the rounding of that sum. *)

Theorem updateCurve_point_is_heard c fx fy :
  increasing c ->
  let x := Rmax 0 (Rmin 1 fx) in
  let c' := fst (updateCurve c fx fy) in
  let y := snd (updateCurve c fx fy) in
  y = Rmax 0 (Rmin 1 (1 - fy)) /\
  exists q,
    In q c' /\ value q = y /\ Rabs (time q - x) < 0.05 /\
    ((exists r, c' = q :: r /\ interpolateCurve (Some c') (time q) = y) \/
     (exists l1 a l2,
        c' = l1 ++ a :: q :: l2 /\
        interpolateCurve (Some c') (time q) = value a + (y - value a))).
Proof.
  intros Hinc x c' y.
  destruct (updateCurve_well_formed_aux c fx fy Hinc) as [Hinc' Hq].
  split; [unfold y, updateCurve; now destruct (findIndex_near _ c) |].
  destruct Hq as (q & Hin & Hv & Ht).
  exists q. split; [exact Hin |]. split; [exact Hv |]. split; [exact Ht |].
  fold c' in Hinc'. fold y in Hv.
  apply in_split in Hin as (l1 & l2 & Hc'). fold c' in Hc'.
  destruct l1 as [|a l1 _] using rev_ind.
  - left. exists l2. split; [exact Hc' |].
    rewrite Hc' in Hinc' |- *. cbn [app] in Hinc' |- *. rewrite <- Hv.
    now apply interpolateCurve_at_first.
  - right. exists l1, a, l2.
    rewrite <- app_assoc in Hc'. cbn [app] in Hc'.
    split; [exact Hc' |].
    rewrite Hc' in Hinc' |- *. rewrite <- Hv.
    now apply interpolateCurve_at_later.
Qed.

End CurveEditor.

(* ================================================================= *)
(** ** The silence editor and the preset buttons *)

Section SilenceEditor.

Implicit Types (a b : block) (bs : list block).

Lemma tidy_lower a bs :
  tidy (a :: bs) ->
  forall b, In b bs -> start a + block_duration a <= start b.
Proof.
  revert a. induction bs as [|b0 bs IH]; intros a [Hsep Hdur] b Hb;
    [destruct Hb |].
  destruct Hsep as [Hab Hrest].
  destruct Hb as [<- | Hb]; [exact Hab |].
  inversion Hdur as [|? ? _ Hdur']; subst.
  assert (Hb0 : 0 <= block_duration b0) by now inversion Hdur'.
  specialize (IH b0 (conj Hrest Hdur') b Hb). lra.
Qed.

Lemma tidy_tail a bs : tidy (a :: bs) -> tidy bs.
Proof.
  intros [Hsep Hdur]. split; [| now inversion Hdur].
  destruct bs as [|b bs]; [exact I | apply Hsep].
Qed.

Lemma tidy_cons a bs :
  0 <= block_duration a ->
  (forall b, In b bs -> start a + block_duration a <= start b) ->
  tidy bs -> tidy (a :: bs).
Proof.
  intros Ha Hlow [Hsep Hdur]. split; [| now constructor].
  destruct bs as [|b bs]; [exact I |].
  split; [apply Hlow; now left | exact Hsep].
Qed.

Lemma handleRemoveSilence_In index bs b :
  In b (handleRemoveSilence index bs) -> In b bs.
Proof.
  unfold handleRemoveSilence. intros H.
  apply in_app_or in H as [H | H].
  - rewrite <- (firstn_skipn index bs). apply in_or_app. now left.
  - rewrite <- (firstn_skipn (S index) bs). apply in_or_app. now right.
Qed.

Lemma handleRemoveSilence_tidy index bs :
  tidy bs -> tidy (handleRemoveSilence index bs).
Proof.
  revert index. induction bs as [|a bs IH]; intros index Htidy.
  - unfold handleRemoveSilence. now rewrite firstn_nil, skipn_nil.
  - destruct index as [|index].
    + exact (tidy_tail a bs Htidy).
    + change (handleRemoveSilence (S index) (a :: bs))
        with (a :: handleRemoveSilence index bs).
      apply tidy_cons.
      * destruct Htidy as [_ Hdur]. now inversion Hdur.
      * intros b Hb. apply (tidy_lower a bs Htidy).
        exact (handleRemoveSilence_In index bs b Hb).
      * apply IH. exact (tidy_tail a bs Htidy).
Qed.

Lemma tidy_snoc bs b :
  tidy bs -> 0 <= block_duration b ->
  (forall a, In a bs -> start a + block_duration a <= start b) ->
  tidy (bs ++ [b]).
Proof.
  induction bs as [|a bs IH]; intros Htidy Hb Hlow.
  - split; [exact I | now constructor].
  - simpl. apply tidy_cons.
    + destruct Htidy as [_ Hdur]. now inversion Hdur.
    + intros c Hc. apply in_app_or in Hc as [Hc | [<- | []]].
      * exact (tidy_lower a bs Htidy c Hc).
      * apply Hlow. now left.
    + apply IH; [exact (tidy_tail a bs Htidy) | exact Hb |].
      intros c Hc. apply Hlow. now right.
Qed.

(** In a tidy list every block ends before the last one does, up to
    the last block's own length. *)

Lemma tidy_before_last first rest :
  tidy (first :: rest) ->
  forall a, In a (first :: rest) ->
  start a + block_duration a
  <= start (last rest first) + block_duration (last rest first).
Proof.
  revert first. induction rest as [|b rest IH]; intros first Htidy a Ha.
  - destruct Ha as [<- | []]. simpl. lra.
  - assert (Hlast : last (b :: rest) first = last rest b).
    { clear. revert first b. induction rest as [|x rest IHr]; intros first b;
        [reflexivity |].
      change (last (b :: x :: rest) first) with (last (x :: rest) first).
      now rewrite (IHr first x), (IHr b x). }
    rewrite Hlast.
    pose proof (IH b (tidy_tail _ _ Htidy)) as IHb.
    destruct Ha as [<- | Ha]; [| now apply IHb].
    pose proof (tidy_lower first (b :: rest) Htidy b (or_introl eq_refl)).
    specialize (IHb b (or_introl eq_refl)).
    destruct Htidy as [_ Hdur]. inversion Hdur as [|? ? _ Hdur']; subst.
    assert (0 <= block_duration b) by now inversion Hdur'. lra.
Qed.

Lemma handleAddSilence_tidy duration bs :
  tidy bs -> tidy (handleAddSilence duration bs).
Proof.
  intros Htidy. unfold handleAddSilence.
  destruct (Rltb _ duration); [| exact Htidy].
  apply tidy_snoc; [exact Htidy | simpl; lra |].
  destruct bs as [|first rest]; [intros a [] |].
  intros a Ha. pose proof (tidy_before_last first rest Htidy a Ha).
  simpl. lra.
Qed.

Lemma tidy_disjoint bs t b1 b2 :
  tidy bs -> In b1 bs -> In b2 bs ->
  in_block t b1 -> in_block t b2 -> b1 = b2.
Proof.
  induction bs as [|a bs IH]; intros Htidy H1 H2 Ht1 Ht2; [destruct H1 |].
  unfold in_block in *.
  destruct H1 as [<- | H1], H2 as [<- | H2]; try reflexivity.
  - pose proof (tidy_lower a bs Htidy b2 H2). lra.
  - pose proof (tidy_lower a bs Htidy b1 H1). lra.
  - exact (IH (tidy_tail a bs Htidy) H1 H2 Ht1 Ht2).
Qed.

(** X26.  Starting from silence blocks that are in order and do not
    overlap (for instance from none), any sequence of uses of the add
    and remove buttons of the editor leaves blocks that are in order
    and do not overlap: no instant lies in two of them.  A block that
    the add button appends has a duration of 10 seconds and ends before
    the duration of the profile. *)

Theorem editor_blocks_never_overlap bs edits :
  tidy bs ->
  let bs' := fold_left edit_silence edits bs in
  tidy bs' /\
  (forall t b1 b2,
     In b1 bs' -> In b2 bs' -> in_block t b1 -> in_block t b2 -> b1 = b2) /\
  (forall duration,
     handleAddSilence duration bs' = bs' \/
     exists b, handleAddSilence duration bs' = bs' ++ [b] /\
               block_duration b = 10 /\
               start b + block_duration b < duration).
Proof.
  intros Htidy bs'.
  assert (H : tidy bs').
  { unfold bs'. clear bs'. revert bs Htidy.
    induction edits as [|ed edits IH]; intros bs Htidy; [exact Htidy |].
    simpl. apply IH. destruct ed as [duration | index]; simpl.
    - now apply handleAddSilence_tidy.
    - now apply handleRemoveSilence_tidy. }
  split; [exact H |]. split.
  - intros t b1 b2. now apply tidy_disjoint.
  - intros duration. unfold handleAddSilence.
    destruct (Rltb _ duration) eqn:E; [right | now left].
    cmp_cases. eexists. split; [reflexivity |]. simpl. split; [reflexivity | exact E].
Qed.

(** X27.  The preset buttons of the base frequency round-trip through
    the curve: the curve written for [low], [normal] or [high] is shown
    again as that preset when the controls are refreshed; any other
    button value gives the [normal] curve, shown as [normal]. *)

Theorem preset_round_trip v :
  checked_preset (Some (handleBaseFrequencyPreset v)) =
  (if String.eqb v "low" then "low"
   else if String.eqb v "high" then "high" else "normal")%string.
Proof.
  unfold checked_preset, getAverageValue, handleBaseFrequencyPreset.
  destruct (String.eqb v "low"); [| destruct (String.eqb v "high")];
    cbn [fold_left List.length value INR].
  - assert (H : (0 + 0.35 + 0.35 + 0.35) / (1 + 1 + 1) = 0.35) by lra.
    rewrite H. cmp_true (Rltb 0.35 0.4). reflexivity.
  - assert (H : (0 + 0.65 + 0.65 + 0.65) / (1 + 1 + 1) = 0.65) by lra.
    rewrite H. cmp_false (Rltb 0.65 0.4). cmp_true (Rgtb 0.65 0.6).
    reflexivity.
  - assert (H : (0 + 0.5 + 0.5 + 0.5) / (1 + 1 + 1) = 0.5) by lra.
    rewrite H. cmp_false (Rltb 0.5 0.4). cmp_false (Rgtb 0.5 0.6).
    reflexivity.
Qed.

End SilenceEditor.

(* ================================================================= *)
(** ** The data model: history, stored profiles, time display *)

Section History.

Context {A : Type}.

Implicit Types (stored : option (list (A * Z))) (entries : list (A * Z)).

Lemma getHistory_addToHistory stored (session : A) (now : Z) :
  getHistory (addToHistory stored session now)
  = firstn 50 ((session, now) :: getHistory stored).
Proof.
  unfold addToHistory. cbn [getHistory].
  destruct (50 <? _)%nat eqn:E; [reflexivity |].
  apply Nat.ltb_ge in E. symmetry. now apply firstn_all2.
Qed.

Lemma firstn_app_firstn (n : nat) (l m : list (A * Z)) :
  firstn n (l ++ firstn n m) = firstn n (l ++ m).
Proof.
  rewrite !firstn_app, firstn_firstn. f_equal. f_equal. lia.
Qed.

Lemma history_after entries stored :
  entries <> [] ->
  getHistory
    (fold_left (fun st e => addToHistory st (fst e) (snd e)) entries stored)
  = firstn 50 (rev entries ++ getHistory stored).
Proof.
  revert stored. induction entries as [|e entries IH]; intros stored Hne;
    [easy |].
  destruct e as [session now]. cbn [fold_left fst snd].
  destruct entries as [|e' entries].
  - cbn [fold_left]. rewrite getHistory_addToHistory. reflexivity.
  - rewrite IH by easy. rewrite getHistory_addToHistory.
    rewrite firstn_app_firstn. f_equal.
    change (rev ((session, now) :: e' :: entries))
      with (rev (e' :: entries) ++ [(session, now)]).
    now rewrite <- app_assoc.
Qed.

(** X28.  After sessions have been added to the history one after the
    other, the stored history is the added records, the latest first,
    followed by the earlier history, cut to 50 records: it never has
    more than 50 records and begins with the record added last. *)

Theorem history_keeps_newest_fifty stored earlier (latest : A * Z) :
  let stored' :=
    fold_left (fun st e => addToHistory st (fst e) (snd e))
      (earlier ++ [latest]) stored in
  getHistory stored'
  = firstn 50 (latest :: rev earlier ++ getHistory stored) /\
  (List.length (getHistory stored') <= 50)%nat /\
  hd_error (getHistory stored') = Some latest.
Proof.
  intros stored'.
  assert (H : getHistory stored'
              = firstn 50 (latest :: rev earlier ++ getHistory stored)).
  { unfold stored'. rewrite history_after by now destruct earlier.
    now rewrite rev_app_distr. }
  rewrite H. repeat split.
  rewrite length_firstn. lia.
Qed.

End History.

Section StoredProfiles.

Context {P : Type} (profile_id : P -> option string) (presets : list P).

Implicit Types (st : storage P) (id : string).

Lemma has_id_other id id' (p : P) :
  id' <> id -> has_id P profile_id id p = true ->
  has_id P profile_id id' p = false.
Proof.
  unfold has_id. destruct (profile_id p) as [i|]; [| discriminate].
  intros Hne Hi. apply String.eqb_eq in Hi. subst i.
  apply String.eqb_neq. congruence.
Qed.

Lemma find_filter_other id id' (l : list P) :
  id' <> id ->
  find (has_id P profile_id id')
    (List.filter (fun p => negb (has_id P profile_id id p)) l)
  = find (has_id P profile_id id') l.
Proof.
  intros Hne. induction l as [|p l IH]; [reflexivity |].
  simpl. destruct (has_id P profile_id id p) eqn:E; simpl.
  - rewrite (has_id_other id id' p Hne E). exact IH.
  - destruct (has_id P profile_id id' p); [reflexivity | exact IH].
Qed.

Lemma find_filter_self id (l : list P) :
  find (has_id P profile_id id)
    (List.filter (fun p => negb (has_id P profile_id id p)) l) = None.
Proof.
  induction l as [|p l IH]; [reflexivity |].
  simpl. destruct (has_id P profile_id id p) eqn:E; simpl; [exact IH |].
  now rewrite E.
Qed.

Lemma find_app_l (f : P -> bool) (l1 l2 l3 : list P) :
  find f l2 = find f l3 -> find f (l1 ++ l2) = find f (l1 ++ l3).
Proof.
  intros H. induction l1 as [|p l1 IH]; [exact H |].
  simpl. now destruct (f p).
Qed.

Lemma find_existsb_false (f : P -> bool) (l : list P) :
  existsb f l = false -> find f l = None.
Proof.
  induction l as [|p l IH]; [reflexivity |].
  simpl. destruct (f p); [discriminate | exact IH].
Qed.

Lemma filter_length_same (f : P -> bool) (l : list P) :
  (List.length (List.filter (fun p => negb (f p)) l) =? List.length l)%nat
  = negb (existsb f l).
Proof.
  induction l as [|p l IH]; [reflexivity |].
  simpl. destruct (f p); simpl.
  - pose proof (filter_length_le (fun p => negb (f p)) l).
    apply Nat.eqb_neq. lia.
  - exact IH.
Qed.

(** X29.  [deleteProfile] succeeds exactly when the id is not the id of
    a preset and some stored profile has it.  When it fails the storage
    is unchanged.  When it succeeds no profile is found under that id
    any more and the current-profile key is removed if it held that id.
    In both cases every other id is looked up as before, and a current
    id other than the deleted one is kept. *)

Theorem deleteProfile_effect st id :
  let st' := fst (deleteProfile P profile_id presets st id) in
  let ok := snd (deleteProfile P profile_id presets st id) in
  (ok = true <->
     existsb (has_id P profile_id id) presets = false /\
     existsb (has_id P profile_id id) (getUserProfiles st) = true) /\
  (ok = false -> st' = st) /\
  (ok = true ->
     getProfile P profile_id presets st' id = None /\
     (getCurrentProfileId st = Some id -> getCurrentProfileId st' = None)) /\
  (forall id', id' <> id ->
     getProfile P profile_id presets st' id'
     = getProfile P profile_id presets st id') /\
  (getCurrentProfileId st <> Some id ->
     getCurrentProfileId st' = getCurrentProfileId st).
Proof.
  unfold deleteProfile.
  destruct (existsb (has_id P profile_id id) presets) eqn:Epre.
  { cbn [fst snd]. repeat split; easy. }
  rewrite filter_length_same.
  destruct (existsb (has_id P profile_id id) (getUserProfiles st)) eqn:Euser;
    cbn [negb fst snd].
  2: { repeat split; easy. }
  set (filtered := List.filter _ (getUserProfiles st)).
  assert (Hself : find (has_id P profile_id id) (presets ++ filtered) = None).
  { rewrite (find_app_l _ presets filtered []) by apply find_filter_self.
    rewrite app_nil_r. now apply find_existsb_false. }
  assert (Hother : forall id', id' <> id ->
            find (has_id P profile_id id') (presets ++ filtered)
            = find (has_id P profile_id id') (presets ++ getUserProfiles st)).
  { intros id' Hne. apply find_app_l. now apply find_filter_other. }
  unfold getProfile, getAllProfiles, getCurrentProfileId, saveUserProfiles.
  cbn [CURRENT_PROFILE PROFILES].
  destruct (CURRENT_PROFILE st) as [c|] eqn:Ec.
  - destruct (String.eqb c id) eqn:E.
    + apply String.eqb_eq in E. subst c.
      unfold setCurrentProfileId, getUserProfiles. cbn [CURRENT_PROFILE PROFILES].
      repeat split; try easy; try congruence.
    + apply String.eqb_neq in E.
      unfold getUserProfiles at 1 2. cbn [CURRENT_PROFILE PROFILES].
      repeat split; try easy; try congruence.
  - unfold getUserProfiles at 1 2. cbn [CURRENT_PROFILE PROFILES].
    repeat split; try easy; try congruence.
Qed.

End StoredProfiles.

Section TimeDisplay.

Lemma js_trunc_nonneg (x : R) : 0 <= x -> js_trunc x = Zfloor x.
Proof. intros H. unfold js_trunc. now destruct (Rle_dec 0 x). Qed.

(** Minutes and seconds of a time that is not negative. *)

Lemma time_fields (seconds : R) :
  0 <= seconds ->
  let mins := Zfloor (seconds / 60) in
  let secs := Zfloor (js_rem seconds 60) in
  (0 <= mins)%Z /\ (0 <= secs <= 59)%Z /\
  (60 * mins + secs = Zfloor seconds)%Z.
Proof.
  intros Hs mins secs.
  assert (Hq : 0 <= seconds / 60) by lra.
  pose proof (Zfloor_bound (seconds / 60)) as Hb. fold mins in Hb.
  assert (Hrem : js_rem seconds 60 = seconds + IZR (- (60 * mins))).
  { unfold js_rem. rewrite (js_trunc_nonneg _ Hq). fold mins.
    rewrite opp_IZR, mult_IZR. lra. }
  assert (Hsecs : secs = (Zfloor seconds + - (60 * mins))%Z).
  { unfold secs. rewrite Hrem. apply Zfloor_addz. }
  assert (Hm : (0 <= mins)%Z) by (apply Zfloor_lub; simpl; lra).
  pose proof (Zfloor_bound (js_rem seconds 60)) as Hr. fold secs in Hr.
  assert (Hrange : 0 <= js_rem seconds 60 < 60).
  { rewrite Hrem, opp_IZR, mult_IZR. lra. }
  repeat split; try lia.
  - apply Zfloor_lub. simpl. lra.
  - apply Z.lt_succ_r. apply lt_IZR. simpl. lra.
Qed.

Lemma length_append (s1 s2 : string) :
  String.length (s1 ++ s2) = (String.length s1 + String.length s2)%nat.
Proof. induction s1 as [|ch s1 IH]; simpl; [reflexivity | now rewrite IH]. Qed.

Lemma two_digits (n : nat) :
  (n < 100)%nat -> String.length (padStart 2 (toString (Z.of_nat n))) = 2%nat.
Proof.
  intros H.
  do 100 (destruct n as [|n]; [reflexivity |]). lia.
Qed.

(** X30.  For a time from 0 up to, but not including, 6000 seconds
    (100 minutes), [formatTime] shows the whole seconds of it, split
    into minutes and seconds: the minutes field is between 0 and 99, the
    seconds field between 0 and 59, 60 times the minutes plus the
    seconds is the time rounded down, and the text has five characters,
    two digits on either side of the colon. *)

Theorem formatTime_fields (seconds : R) :
  0 <= seconds < 6000 ->
  exists mins secs : Z,
    formatTime seconds
    = (padStart 2 (toString mins) ++ ":" ++ padStart 2 (toString secs))%string /\
    (0 <= mins <= 99)%Z /\ (0 <= secs <= 59)%Z /\
    (60 * mins + secs = Zfloor seconds)%Z /\
    String.length (formatTime seconds) = 5%nat.
Proof.
  intros [Hs Hlt].
  destruct (time_fields seconds Hs) as (Hm & Hsec & Hsum).
  exists (Zfloor (seconds / 60)), (Zfloor (js_rem seconds 60)).
  set (mins := Zfloor (seconds / 60)) in *.
  set (secs := Zfloor (js_rem seconds 60)) in *.
  assert (Hm99 : (mins < 100)%Z).
  { apply lt_IZR. pose proof (Zfloor_bound (seconds / 60)) as Hb.
    fold mins in Hb. simpl. lra. }
  split; [reflexivity |]. repeat split; try lia.
  unfold formatTime. fold mins secs.
  rewrite !length_append.
  rewrite <- (Z2Nat.id mins) by lia. rewrite <- (Z2Nat.id secs) by lia.
  rewrite !two_digits by lia. reflexivity.
Qed.

End TimeDisplay.

(* ================================================================= *)
(** ** Instances for the editor and the data model *)

Section EditorInstances.

Lemma focus_curve_well_formed :
  increasing focus_curve /\ Forall unit_point focus_curve.
Proof.
  split; [simpl; lra |].
  repeat constructor; simpl; lra.
Qed.

Lemma updateCurve_keeps_curve_well_formed_witness :
  let c' := fst (updateCurve focus_curve 0.25 0.3) in
  increasing c' /\ Forall unit_point c' /\
  (List.length focus_curve <= List.length c' <= S (List.length focus_curve))%nat.
Proof.
  apply (updateCurve_keeps_curve_well_formed focus_curve 0.25 0.3);
    apply focus_curve_well_formed.
Defined.

Lemma updateCurve_point_is_heard_witness :
  let x := Rmax 0 (Rmin 1 0.25) in
  let c' := fst (updateCurve focus_curve 0.25 0.3) in
  let y := snd (updateCurve focus_curve 0.25 0.3) in
  y = Rmax 0 (Rmin 1 (1 - 0.3)) /\
  exists q,
    In q c' /\ value q = y /\ Rabs (time q - x) < 0.05 /\
    ((exists r, c' = q :: r /\ interpolateCurve (Some c') (time q) = y) \/
     (exists l1 a l2,
        c' = l1 ++ a :: q :: l2 /\
        interpolateCurve (Some c') (time q) = value a + (y - value a))).
Proof.
  apply (updateCurve_point_is_heard focus_curve 0.25 0.3).
  apply focus_curve_well_formed.
Defined.

Lemma editor_blocks_never_overlap_witness :
  let bs' :=
    fold_left edit_silence
      [AddSilence 1500; AddSilence 1500; RemoveSilence 0; AddSilence 1500] [] in
  tidy bs' /\
  (forall t b1 b2,
     In b1 bs' -> In b2 bs' -> in_block t b1 -> in_block t b2 -> b1 = b2) /\
  (forall duration,
     handleAddSilence duration bs' = bs' \/
     exists b, handleAddSilence duration bs' = bs' ++ [b] /\
               block_duration b = 10 /\
               start b + block_duration b < duration).
Proof.
  apply (editor_blocks_never_overlap []
           [AddSilence 1500; AddSilence 1500; RemoveSilence 0; AddSilence 1500]).
  split; [exact I | constructor].
Defined.

(** The store of a user who has saved the README profile and made it
    the current one, with the preset [preset-deep]. *)

Lemma deleteProfile_effect_witness :
  let st := mkStorage (Some [readme_profile]) (Some "profile-id"%string) in
  let st' := fst (deleteProfile profile id [deep_profile] st "profile-id") in
  snd (deleteProfile profile id [deep_profile] st "profile-id") = true /\
  getProfile profile id [deep_profile] st' "profile-id" = None /\
  getCurrentProfileId st' = None /\
  getProfile profile id [deep_profile] st' "preset-deep"
  = getProfile profile id [deep_profile] st "preset-deep".
Proof.
  intros st st'.
  destruct (deleteProfile_effect id [deep_profile] st "profile-id")
    as (Hok & _ & Hdel & Hother & _).
  assert (Htrue : snd (deleteProfile profile id [deep_profile] st "profile-id")
                  = true) by (apply Hok; split; reflexivity).
  destruct (Hdel Htrue) as [Hgone Hcur].
  split; [exact Htrue |]. split; [exact Hgone |].
  split; [apply Hcur; reflexivity | apply Hother; discriminate].
Defined.

Lemma formatTime_quarter_hour : formatTime 1500 = "25:00"%string.
Proof.
  unfold formatTime, js_rem.
  assert (Hq : Zfloor (1500 / 60) = 25%Z) by (apply Zfloor_eq; simpl; lra).
  rewrite js_trunc_nonneg by lra. rewrite Hq.
  assert (Hr : Zfloor (1500 - 60 * IZR 25) = 0%Z)
    by (apply Zfloor_eq; simpl; lra).
  rewrite Hr. reflexivity.
Qed.

Lemma formatTime_fields_witness :
  exists mins secs : Z,
    formatTime 1500
    = (padStart 2 (toString mins) ++ ":" ++ padStart 2 (toString secs))%string /\
    (0 <= mins <= 99)%Z /\ (0 <= secs <= 59)%Z /\
    (60 * mins + secs = Zfloor 1500)%Z /\
    String.length (formatTime 1500) = 5%nat.
Proof. apply (formatTime_fields 1500). lra. Defined.

End EditorInstances.
